(** * items_manager: window queries over packed list items

    A shallow embedding of [packages/core/src/wasm/items_manager.c] and the
    properties its specification states about it.

    The C types are modelled on [Z]: [int] is a 32-bit and [long long] a
    64-bit two's complement integer; every arithmetic operation of the source
    is followed by the reduction to its result type ([wrap32], [wrap64]), and
    the bit operations are those of [Z] (two's complement of unbounded width,
    which agrees with the machine on values in range).  Arrays are lists read
    and written by index with stdpp's lookup and insert; an access outside
    the array is a [Fault]. *)

From Stdlib Require Import ZArith Lia Sorted.
From stdpp Require Import base numbers list relations.

Local Open Scope Z_scope.

(** ** Machine integers *)

Module CInt.

(** Reduction of a mathematical integer to the signed 32-bit range: what a
    conversion to [int] keeps (as on wasm32, the target of the source). *)
Definition wrap32 (z : Z) : Z := (z + 2 ^ 31) mod 2 ^ 32 - 2 ^ 31.

(** Reduction to the signed 64-bit range ([long long]). *)
Definition wrap64 (z : Z) : Z := (z + 2 ^ 63) mod 2 ^ 64 - 2 ^ 63.

Definition in_int32 (z : Z) : Prop := - 2 ^ 31 <= z < 2 ^ 31.

Definition in_int64 (z : Z) : Prop := - 2 ^ 63 <= z < 2 ^ 63.

End CInt.

Export CInt.

(** ** The source, function by function *)

Module ItemsManager.

(** [long long get_item_size(long long item) { return item >> 32; }] *)
Definition get_item_size (item : Z) : Z := Z.shiftr item 32.

(** [long long get_item_offset(long long item) { return item & 0xffffffff; }]
    The literal has type [unsigned int]; it is converted to [long long]
    with its value, 4294967295. *)
Definition get_item_offset (item : Z) : Z := Z.land item 0xffffffff.

(** [long long make_item(int size, int offset)
      { return ((long long) size << 32) | (long long) offset; }]
    Both conversions to [long long] keep the value (sign extension). *)
Definition make_item (size offset : Z) : Z :=
  Z.lor (wrap64 (Z.shiftl size 32)) offset.

(** [int is_item_in_window(long long item, long long cursor_offset,
                           long long cursor_size, long long window_size)]
    The result of [&&] is the [int] 1 or 0. *)
Definition is_item_in_window
    (item cursor_offset cursor_size window_size : Z) : Z :=
  if (get_item_offset item
        <=? wrap64 (wrap64 (cursor_offset + cursor_size) + window_size))
     && (wrap64 (get_item_offset item + get_item_size item)
        >=? wrap64 (cursor_offset - window_size))
  then 1 else 0.

(** How a call ends: with a value, with an access outside an array, or
    with the fuel of the model used up. *)
Inductive outcome (A : Type) : Type :=
| Done (a : A)
| Fault
| OutOfFuel.

Arguments Done {A} a.
Arguments Fault {A}.
Arguments OutOfFuel {A}.

(** [a[i]] as an rvalue. *)
Definition read (a : list Z) (i : Z) : option Z :=
  if i <? 0 then None else a !! Z.to_nat i.

(** [a[i] = v]. *)
Definition write (a : list Z) (i v : Z) : option (list Z) :=
  if (0 <=? i) && (i <? Z.of_nat (length a))
  then Some (<[Z.to_nat i := v]> a) else None.

(** The variables the loop of [get_item_indices_in_window] changes: [i],
    [result_count] and the array behind [result]. *)
Record scan_state : Type := mk_scan_state {
  st_i : Z;
  st_result_count : Z;
  st_result : list Z
}.

(** One pass through the loop body, followed by [++i]:
    [if (is_item_in_window(items[i], cursor_offset, cursor_size, window_size))
       { result[result_count++] = i; }] *)
Definition scan_body (items : list Z) (cursor_offset cursor_size window_size : Z)
    (s : scan_state) : option scan_state :=
  match read items (st_i s) with
  | None => None
  | Some item =>
      if is_item_in_window item cursor_offset cursor_size window_size =? 0
      then Some (mk_scan_state (wrap32 (st_i s + 1))
                               (st_result_count s) (st_result s))
      else
        match write (st_result s) (st_result_count s) (st_i s) with
        | None => None
        | Some result' =>
            Some (mk_scan_state (wrap32 (st_i s + 1))
                                (wrap32 (st_result_count s + 1)) result')
        end
  end.

(** [for (...; i < items_count; ++i) body]: each unit of fuel pays for one
    evaluation of the loop condition. *)
Fixpoint scan_loop (fuel : nat) (items : list Z)
    (items_count cursor_offset cursor_size window_size : Z)
    (s : scan_state) : outcome scan_state :=
  match fuel with
  | O => OutOfFuel
  | S fuel' =>
      if st_i s <? items_count then
        match scan_body items cursor_offset cursor_size window_size s with
        | None => Fault
        | Some s' =>
            scan_loop fuel' items items_count
                      cursor_offset cursor_size window_size s'
        end
      else Done s
  end.

(** [int get_item_indices_in_window(long long* items, long long* result,
        int items_count, int cursor_offset, int cursor_size, int window_size)]
    The model returns the value of [result_count] together with the final
    contents of the array behind [result]. *)
Definition get_item_indices_in_window (fuel : nat) (items result : list Z)
    (items_count cursor_offset cursor_size window_size : Z)
    : outcome (Z * list Z) :=
  match scan_loop fuel items items_count cursor_offset cursor_size window_size
                  (mk_scan_state 0 0 result) with
  | Done s => Done (st_result_count s, st_result s)
  | Fault => Fault
  | OutOfFuel => OutOfFuel
  end.

(** [int get_top_padding(long long* items, int first_item_index)
      { return get_item_offset(items[first_item_index]); }]
    The [long long] is converted to the [int] the function returns. *)
Definition get_top_padding (items : list Z) (first_item_index : Z) : option Z :=
  match read items first_item_index with
  | None => None
  | Some item => Some (wrap32 (get_item_offset item))
  end.

(** [int get_bottom_padding(long long* items, int total_items,
                            int last_item_index)] *)
Definition get_bottom_padding (items : list Z)
    (total_items last_item_index : Z) : option Z :=
  match read items (wrap32 (total_items - 1)) with
  | None => None
  | Some last_item =>
      match read items last_item_index with
      | None => None
      | Some last_item_in_window =>
          Some (wrap32
            (wrap64
               (wrap64
                  (wrap64 (get_item_offset last_item + get_item_size last_item)
                   - get_item_offset last_item_in_window)
                - get_item_size last_item_in_window)))
      end
  end.

(** The loop as a transition system: one step is one iteration, taken only
    when the loop condition holds. *)
Inductive scan_step (items : list Z)
    (items_count cursor_offset cursor_size window_size : Z)
    : scan_state -> scan_state -> Prop :=
| scan_step_iter (s s' : scan_state) :
    st_i s < items_count ->
    scan_body items cursor_offset cursor_size window_size s = Some s' ->
    scan_step items items_count cursor_offset cursor_size window_size s s'.

End ItemsManager.

Export ItemsManager.

(** ** Vocabulary of the specification *)

Module WindowSpec.

(** The packed layout as the specification writes it: [size] in the high
    word, the bit pattern of [offset] in the low word. *)
Definition packed_value (size offset : Z) : Z :=
  Z.lor (Z.shiftl size 32) (Z.land offset 0xFFFFFFFF).

(** The membership test as the specification writes it, over the decoded
    fields and in unbounded arithmetic. *)
Definition in_window (item cursor_offset cursor_size window_size : Z) : Prop :=
  get_item_offset item <= cursor_offset + cursor_size + window_size
  /\ get_item_offset item + get_item_size item >= cursor_offset - window_size.

#[export] Instance in_window_dec (item cursor_offset cursor_size window_size : Z) :
  Decision (in_window item cursor_offset cursor_size window_size).
Proof.
  unfold in_window. apply and_dec; [apply Z.le_dec | apply Z_ge_dec].
Defined.

Definition in_windowb (item cursor_offset cursor_size window_size : Z) : bool :=
  (get_item_offset item <=? cursor_offset + cursor_size + window_size)
  && (cursor_offset - window_size <=? get_item_offset item + get_item_size item).

(** The indices the window query is specified to report: the items are
    visited in order, [i] being the index of the first one, and the index of
    each item that is in the window is kept. *)
Fixpoint window_indices (i : Z) (items : list Z)
    (cursor_offset cursor_size window_size : Z) : list Z :=
  match items with
  | [] => []
  | item :: rest =>
      if in_windowb item cursor_offset cursor_size window_size
      then i :: window_indices (i + 1) rest cursor_offset cursor_size window_size
      else window_indices (i + 1) rest cursor_offset cursor_size window_size
  end.

(** Decoded offsets never decrease along the array. *)
Definition offsets_nondecreasing (items : list Z) : Prop :=
  forall (i j : nat) (a b : Z),
    (i <= j)%nat -> items !! i = Some a -> items !! j = Some b ->
    get_item_offset a <= get_item_offset b.

(** Decoded end positions (offset plus size) never decrease along the
    array. *)
Definition ends_nondecreasing (items : list Z) : Prop :=
  forall (i j : nat) (a b : Z),
    (i <= j)%nat -> items !! i = Some a -> items !! j = Some b ->
    get_item_offset a + get_item_size a <= get_item_offset b + get_item_size b.

(** A set of indices with no gap: whatever lies between two of its members
    is a member. *)
Definition contiguous_run (l : list Z) : Prop :=
  forall i j k : Z, i ∈ l -> k ∈ l -> i <= j <= k -> j ∈ l.

(** The value the specification gives for the bottom padding, over the
    decoded fields and in unbounded arithmetic. *)
Definition bottom_padding_value (last_item last_item_in_window : Z) : Z :=
  (get_item_offset last_item + get_item_size last_item)
  - (get_item_offset last_item_in_window + get_item_size last_item_in_window).

End WindowSpec.

Export WindowSpec.

(** ** Arrays used as examples *)

Module Examples.

(** Three items of size 10 laid end to end from position 0. *)
Definition adjacent_items : list Z :=
  [make_item 10 0; make_item 10 10; make_item 10 20].

(** Offsets 0, 5 and 50 in increasing order, the first item long enough to
    reach over the other two. *)
Definition overlapping_items : list Z :=
  [make_item 100 0; make_item 1 5; make_item 10 50].

(** Two items laid end to end whose total extent is [2^32 - 2]. *)
Definition long_items : list Z :=
  [make_item 0 0; make_item 2147483647 2147483647].

(** One item of size 0 whose low word is [0xFFFFFFFF]. *)
Definition high_offset_items : list Z := [0xFFFFFFFF].

End Examples.

Export Examples.

(** ** Facts about the machine integers *)

Section CIntFacts.

Lemma wrap32_small (z : Z) : in_int32 z -> wrap32 z = z.
Proof.
  unfold in_int32, wrap32. intros Hz.
  rewrite Z.mod_small by lia. lia.
Qed.

Lemma wrap64_small (z : Z) : in_int64 z -> wrap64 z = z.
Proof.
  unfold in_int64, wrap64. intros Hz.
  rewrite Z.mod_small by lia. lia.
Qed.

End CIntFacts.

(** ** The codec *)

Section Codec.

Lemma get_item_offset_mod (item : Z) : get_item_offset item = item mod 2 ^ 32.
Proof.
  unfold get_item_offset. change 0xffffffff with (Z.ones 32).
  apply Z.land_ones. lia.
Qed.

Lemma get_item_size_div (item : Z) : get_item_size item = item / 2 ^ 32.
Proof. unfold get_item_size. apply Z.shiftr_div_pow2. lia. Qed.

Lemma get_item_offset_range (item : Z) : 0 <= get_item_offset item < 2 ^ 32.
Proof. rewrite get_item_offset_mod. apply Z.mod_pos_bound. lia. Qed.

Lemma get_item_size_range (item : Z) :
  in_int64 item -> in_int32 (get_item_size item).
Proof.
  unfold in_int64, in_int32. intros Hitem. rewrite get_item_size_div.
  split.
  - apply Z.div_le_lower_bound; lia.
  - apply Z.div_lt_upper_bound; lia.
Qed.

Lemma item_fields (item : Z) :
  item = get_item_size item * 2 ^ 32 + get_item_offset item.
Proof.
  rewrite get_item_size_div, get_item_offset_mod.
  pose proof (Z.div_mod item (2 ^ 32)). lia.
Qed.

Lemma get_item_size_sign (item : Z) : get_item_size item < 0 <-> item < 0.
Proof.
  pose proof (item_fields item). pose proof (get_item_offset_range item). lia.
Qed.

(** The fields of a value laid out as high word and low word. *)
Lemma fields_of_words (hi lo : Z) :
  0 <= lo < 2 ^ 32 ->
  get_item_size (hi * 2 ^ 32 + lo) = hi
  /\ get_item_offset (hi * 2 ^ 32 + lo) = lo.
Proof.
  intros Hlo. rewrite get_item_size_div, get_item_offset_mod. split.
  - symmetry. apply (Z.div_unique _ _ hi lo); lia.
  - symmetry. apply (Z.mod_unique _ _ hi lo); lia.
Qed.

Lemma shifted_size (size : Z) :
  in_int32 size -> wrap64 (Z.shiftl size 32) = size * 2 ^ 32.
Proof.
  unfold in_int32. intros Hs. rewrite Z.shiftl_mul_pow2 by lia.
  apply wrap64_small. unfold in_int64. lia.
Qed.

(** What the decoders read from [make_item size offset], whatever the
    sign of [offset]: the high word is [size] or-ed with the sign
    extension of [offset]. *)
Lemma make_item_fields (size offset : Z) :
  in_int32 size ->
  get_item_size (make_item size offset) = Z.lor size (Z.shiftr offset 32)
  /\ get_item_offset (make_item size offset) = offset mod 2 ^ 32.
Proof.
  intros Hs. unfold make_item. rewrite shifted_size by assumption. split.
  - unfold get_item_size. rewrite Z.shiftr_lor. f_equal.
    rewrite <- Z.shiftl_mul_pow2 by lia.
    rewrite Z.shiftr_shiftl_l by lia. reflexivity.
  - unfold get_item_offset. change 0xffffffff with (Z.ones 32).
    rewrite Z.land_lor_distr_l, !Z.land_ones by lia.
    rewrite Z.mod_mul by lia. apply Z.lor_0_l.
Qed.

Lemma shiftr32_nonneg (offset : Z) :
  0 <= offset < 2 ^ 32 -> Z.shiftr offset 32 = 0.
Proof.
  intros Ho. rewrite Z.shiftr_div_pow2 by lia. apply Z.div_small. lia.
Qed.

Lemma shiftr32_neg (offset : Z) :
  - 2 ^ 32 <= offset < 0 -> Z.shiftr offset 32 = -1.
Proof.
  intros Ho. rewrite Z.shiftr_div_pow2 by lia.
  symmetry. apply (Z.div_unique _ _ (-1) (offset + 2 ^ 32)); lia.
Qed.

(** On a non-negative offset [make_item] builds the layout of the
    specification. *)
Lemma make_item_packed_value (size offset : Z) :
  in_int32 size -> 0 <= offset < 2 ^ 32 ->
  make_item size offset = packed_value size offset
  /\ make_item size offset = size * 2 ^ 32 + offset.
Proof.
  intros Hs Ho. unfold make_item, packed_value.
  rewrite shifted_size by assumption.
  change 0xFFFFFFFF with (Z.ones 32). rewrite Z.land_ones by lia.
  rewrite Z.mod_small by lia. rewrite Z.shiftl_mul_pow2 by lia.
  split; [reflexivity|].
  symmetry. apply Z.add_nocarry_lor.
  apply Z.bits_inj'. intros n Hn.
  rewrite Z.land_spec, Z.bits_0.
  destruct (Z.lt_ge_cases n 32) as [Hlt|Hge].
  - rewrite Z.mul_pow2_bits_low by lia. reflexivity.
  - rewrite (Z.bits_above_log2 offset n); [apply andb_false_r|lia|].
    destruct (Z.eq_dec offset 0) as [->|Hne]; [simpl; lia|].
    apply Z.lt_le_trans with 32; [|lia].
    apply Z.log2_lt_pow2; lia.
Qed.

(** The layout of the specification keeps both fields apart, for every
    offset. *)
Lemma packed_value_fields (size offset : Z) :
  get_item_size (packed_value size offset) = size
  /\ get_item_offset (packed_value size offset) = offset mod 2 ^ 32.
Proof.
  unfold packed_value. change 0xFFFFFFFF with (Z.ones 32).
  rewrite Z.land_ones by lia.
  pose proof (Z.mod_pos_bound offset (2 ^ 32) ltac:(lia)) as Hlo.
  split.
  - unfold get_item_size. rewrite Z.shiftr_lor, Z.shiftr_shiftl_l by lia.
    rewrite shiftr32_nonneg by lia. apply Z.lor_0_r.
  - unfold get_item_offset. change 0xffffffff with (Z.ones 32).
    rewrite Z.land_lor_distr_l, !Z.land_ones by lia.
    rewrite Z.shiftl_mul_pow2, Z.mod_mul, Z.mod_mod by lia. apply Z.lor_0_l.
Qed.

End Codec.

(** ** Claims about the codec *)

Section CodecClaims.

(** C3 (the code departs from the claim): on the sizes and offsets
    [make_item] can receive, a negative offset is not masked to its low 32
    bits before it is or-ed in.  At [size = 1], [offset = -1] the layout of
    the specification is [0x1FFFFFFFF], whose size field is 1, while
    [make_item] returns -1 (all 64 bits set), whose size field is -1: the
    size field is not independent of the offset. *)
Theorem make_item_unmasked_negative_offset :
  in_int32 1 /\ in_int32 (-1)
  /\ packed_value 1 (-1) = 0x1FFFFFFFF
  /\ get_item_size (packed_value 1 (-1)) = 1
  /\ make_item 1 (-1) = -1
  /\ get_item_size (make_item 1 (-1)) = -1
  /\ make_item 1 (-1) <> packed_value 1 (-1)
  /\ get_item_size (make_item 1 (-1)) <> get_item_size (make_item 1 0).
Proof.
  unfold in_int32. repeat split; try lia; try reflexivity; discriminate.
Qed.

(** C5: an [int] size of either sign and a non-negative [int] offset are
    both read back unchanged from the value [make_item] packs them into. *)
Theorem make_item_roundtrip_nonneg_offset (size offset : Z) :
  in_int32 size -> in_int32 offset -> 0 <= offset ->
  get_item_size (make_item size offset) = size
  /\ get_item_offset (make_item size offset) = offset.
Proof.
  unfold in_int32 at 2. intros Hs Ho Hnn.
  destruct (make_item_fields size offset Hs) as [Hsize Hoff].
  rewrite Hsize, Hoff. split.
  - rewrite shiftr32_nonneg by lia. apply Z.lor_0_r.
  - apply Z.mod_small. lia.
Qed.

Lemma make_item_roundtrip_nonneg_offset_witness :
  in_int32 (-5) /\ in_int32 7 /\ 0 <= 7
  /\ get_item_size (make_item (-5) 7) = -5
  /\ get_item_offset (make_item (-5) 7) = 7.
Proof.
  assert (H1 : in_int32 (-5)) by (unfold in_int32; lia).
  assert (H2 : in_int32 7) by (unfold in_int32; lia).
  assert (H3 : 0 <= 7) by lia.
  split; [exact H1|]. split; [exact H2|]. split; [exact H3|].
  exact (make_item_roundtrip_nonneg_offset (-5) 7 H1 H2 H3).
Defined.

(** C8: the two decoders treat the sign differently.  [get_item_size] is
    the arithmetic shift: it is the floor of [item / 2^32], an [int] value
    that is negative exactly when the packed value is, and a negative size
    stored above any low word is read back as it is.  [get_item_offset] is
    the low word zero-extended: it lies in [0, 2^32), and when bit 31 of the
    packed value is set it is at least [2^31] rather than negative. *)
Theorem decoders_sign_asymmetric (item : Z) :
  in_int64 item ->
  get_item_size item = item / 2 ^ 32
  /\ in_int32 (get_item_size item)
  /\ (get_item_size item < 0 <-> item < 0)
  /\ (forall size lo : Z,
        size < 0 -> 0 <= lo < 2 ^ 32 ->
        get_item_size (size * 2 ^ 32 + lo) = size)
  /\ get_item_offset item = item mod 2 ^ 32
  /\ 0 <= get_item_offset item < 2 ^ 32
  /\ (Z.testbit item 31 = true <-> 2 ^ 31 <= get_item_offset item).
Proof.
  intros Hitem.
  split; [apply get_item_size_div|].
  split; [apply get_item_size_range; assumption|].
  split; [apply get_item_size_sign|].
  split; [intros size lo _ Hlo; apply (fields_of_words size lo Hlo)|].
  split; [apply get_item_offset_mod|].
  split; [apply get_item_offset_range|].
  pose proof (get_item_offset_range item) as Hrange.
  assert (Hbit : Z.testbit item 31 = Z.testbit (get_item_offset item) 31).
  { rewrite get_item_offset_mod. rewrite Z.mod_pow2_bits_low by lia.
    reflexivity. }
  rewrite Hbit. rewrite Z.testbit_true by lia.
  change (2 ^ 31) with 2147483648 in *. change (2 ^ 32) with 4294967296 in *.
  split; intros H.
  - destruct (Z.lt_ge_cases (get_item_offset item) 2147483648) as [Hlt|Hge];
      [|assumption].
    rewrite Z.div_small in H by lia. discriminate H.
  - replace (get_item_offset item / 2147483648) with 1; [reflexivity|].
    apply (Z.div_unique _ _ 1 (get_item_offset item - 2147483648)); lia.
Qed.

Lemma decoders_sign_asymmetric_witness :
  in_int64 (-1)
  /\ get_item_size (-1) = -1
  /\ get_item_offset (-1) = 4294967295.
Proof.
  assert (H : in_int64 (-1)) by (unfold in_int64; lia).
  split; [exact H|].
  pose proof (decoders_sign_asymmetric (-1) H) as (Hsize & _ & _ & _ & Hoff & _).
  split; [rewrite Hsize | rewrite Hoff]; reflexivity.
Defined.

(** C9: a negative [int] offset is sign-extended before it is or-ed in, so
    every bit of the high word of the packed value is set: the packed value
    is the offset itself, [get_item_size] reads -1 whatever the size was,
    and [get_item_offset] reads [offset + 2^32]. *)
Theorem make_item_negative_offset (size offset : Z) :
  in_int32 size -> in_int32 offset -> offset < 0 ->
  get_item_size (make_item size offset) = -1
  /\ get_item_offset (make_item size offset) = offset + 2 ^ 32
  /\ make_item size offset = offset
  /\ (forall n : Z, 32 <= n -> Z.testbit (make_item size offset) n = true).
Proof.
  unfold in_int32 at 2. intros Hs Ho Hneg.
  destruct (make_item_fields size offset Hs) as [Hsize Hoff].
  assert (Hsize' : get_item_size (make_item size offset) = -1).
  { rewrite Hsize, shiftr32_neg by lia. apply Z.lor_m1_r. }
  assert (Hoff' : get_item_offset (make_item size offset) = offset + 2 ^ 32).
  { rewrite Hoff. symmetry.
    apply (Z.mod_unique _ _ (-1) (offset + 2 ^ 32)); lia. }
  assert (Hval : make_item size offset = offset).
  { rewrite (item_fields (make_item size offset)), Hsize', Hoff'. lia. }
  split; [exact Hsize'|]. split; [exact Hoff'|]. split; [exact Hval|].
  intros n Hn. rewrite Hval.
  apply Z.bits_above_log2_neg; [lia|].
  apply Z.lt_le_trans with 32; [|lia].
  destruct (Z.eq_dec offset (-1)) as [->|Hne]; [reflexivity|].
  apply Z.log2_lt_pow2; unfold Z.pred; lia.
Qed.

Lemma make_item_negative_offset_witness :
  in_int32 5 /\ in_int32 (-7) /\ -7 < 0
  /\ get_item_size (make_item 5 (-7)) = -1
  /\ get_item_offset (make_item 5 (-7)) = -7 + 2 ^ 32.
Proof.
  assert (H1 : in_int32 5) by (unfold in_int32; lia).
  assert (H2 : in_int32 (-7)) by (unfold in_int32; lia).
  assert (H3 : -7 < 0) by lia.
  split; [exact H1|]. split; [exact H2|]. split; [exact H3|].
  destruct (make_item_negative_offset 5 (-7) H1 H2 H3) as (Hs & Ho & _).
  split; [exact Hs | exact Ho].
Defined.

End CodecClaims.

(** ** The membership test *)

Section Membership.

Lemma in_windowb_spec (item co cs ws : Z) :
  in_windowb item co cs ws = true <-> in_window item co cs ws.
Proof.
  unfold in_windowb, in_window.
  rewrite andb_true_iff, !Z.leb_le. lia.
Qed.

Lemma in_windowb_false (item co cs ws : Z) :
  in_windowb item co cs ws = false <-> ~ in_window item co cs ws.
Proof.
  rewrite <- in_windowb_spec. destruct (in_windowb item co cs ws); split;
    congruence.
Qed.

Lemma item_end_in_int64 (item : Z) :
  in_int64 item -> in_int64 (get_item_offset item + get_item_size item).
Proof.
  intros Hitem.
  pose proof (get_item_offset_range item) as Hoff.
  pose proof (get_item_size_range item Hitem) as Hsize.
  unfold in_int32 in Hsize. unfold in_int64. lia.
Qed.

(** Where none of its three [long long] operations overflows, the test
    computes the membership of the specification. *)
Lemma is_item_in_window_spec (item co cs ws : Z) :
  in_int64 item ->
  in_int64 (co + cs) -> in_int64 (co + cs + ws) -> in_int64 (co - ws) ->
  is_item_in_window item co cs ws
  = if in_windowb item co cs ws then 1 else 0.
Proof.
  intros Hitem Hsum1 Hsum2 Hdiff. unfold is_item_in_window, in_windowb.
  rewrite (wrap64_small (co + cs)) by assumption.
  rewrite (wrap64_small (co + cs + ws)) by assumption.
  rewrite (wrap64_small (co - ws)) by assumption.
  rewrite wrap64_small by (apply item_end_in_int64; assumption).
  rewrite Z.geb_leb. reflexivity.
Qed.

(** The cursor values the exported scan passes on are [int]s. *)
Lemma is_item_in_window_int32 (item co cs ws : Z) :
  in_int64 item -> in_int32 co -> in_int32 cs -> in_int32 ws ->
  is_item_in_window item co cs ws
  = if in_windowb item co cs ws then 1 else 0.
Proof.
  unfold in_int32. intros Hitem Hco Hcs Hws.
  apply is_item_in_window_spec; [assumption|..]; unfold in_int64; lia.
Qed.

(** C2: wherever the sums and the difference of the cursor values are
    [long long] values (as they are for every [int] cursor the scan passes),
    [is_item_in_window] returns 1 exactly when the decoded offset is at most
    [cursor_offset + cursor_size + window_size] and the decoded end is at
    least [cursor_offset - window_size], both bounds included, and returns 0
    otherwise. *)
Theorem is_item_in_window_iff (item cursor_offset cursor_size window_size : Z) :
  in_int64 item ->
  in_int64 (cursor_offset + cursor_size) ->
  in_int64 (cursor_offset + cursor_size + window_size) ->
  in_int64 (cursor_offset - window_size) ->
  (is_item_in_window item cursor_offset cursor_size window_size = 1
   <-> get_item_offset item <= cursor_offset + cursor_size + window_size
       /\ get_item_offset item + get_item_size item
          >= cursor_offset - window_size)
  /\ (is_item_in_window item cursor_offset cursor_size window_size <> 1
      <-> is_item_in_window item cursor_offset cursor_size window_size = 0)
  /\ (get_item_offset item = cursor_offset + cursor_size + window_size + 1 ->
      is_item_in_window item cursor_offset cursor_size window_size = 0)
  /\ (get_item_offset item + get_item_size item
      = cursor_offset - window_size - 1 ->
      is_item_in_window item cursor_offset cursor_size window_size = 0).
Proof.
  intros Hitem Hsum1 Hsum2 Hdiff.
  rewrite (is_item_in_window_spec item _ _ _ Hitem Hsum1 Hsum2 Hdiff).
  fold (in_window item cursor_offset cursor_size window_size).
  destruct (in_windowb item cursor_offset cursor_size window_size) eqn:Hb.
  - apply in_windowb_spec in Hb. split; [tauto|].
    split; [split; intros H; [congruence | discriminate H]|].
    unfold in_window in Hb. split; intros Heq; lia.
  - apply in_windowb_false in Hb. split; [split; [discriminate | tauto]|].
    split; [split; [reflexivity | discriminate]|].
    split; reflexivity.
Qed.

Lemma is_item_in_window_iff_witness :
  in_int64 (make_item 10 20)
  /\ is_item_in_window (make_item 10 20) 10 10 0 = 1
  /\ is_item_in_window (make_item 10 21) 10 10 0 = 0
  /\ is_item_in_window (make_item 10 0) 10 10 0 = 1
  /\ is_item_in_window (make_item 9 0) 10 10 0 = 0.
Proof.
  assert (H0 : in_int64 (make_item 10 20)) by (vm_compute; split; congruence).
  assert (H1 : in_int64 (10 + 10)) by (vm_compute; split; congruence).
  assert (H2 : in_int64 (10 + 10 + 0)) by (vm_compute; split; congruence).
  assert (H3 : in_int64 (10 - 0)) by (vm_compute; split; congruence).
  split; [exact H0|].
  split.
  - apply (is_item_in_window_iff (make_item 10 20) 10 10 0 H0 H1 H2 H3).
    vm_compute. split; congruence.
  - repeat split; reflexivity.
Defined.

End Membership.

(** ** The indices the specification asks for *)

Section WindowIndices.

Variables co cs ws : Z.

Lemma window_indices_elem (items : list Z) :
  forall (i0 x : Z),
    x ∈ window_indices i0 items co cs ws
    <-> exists (k : nat) (item : Z),
          items !! k = Some item /\ x = i0 + Z.of_nat k
          /\ in_window item co cs ws.
Proof.
  induction items as [|item rest IH]; intros i0 x; simpl.
  - rewrite elem_of_nil. split; [tauto|].
    intros (k & it & Hk & _). rewrite lookup_nil in Hk. discriminate Hk.
  - assert (Hrest :
      x ∈ window_indices (i0 + 1) rest co cs ws
      <-> exists (k : nat) (it : Z),
            (item :: rest) !! S k = Some it /\ x = i0 + Z.of_nat (S k)
            /\ in_window it co cs ws).
    { rewrite IH. split; intros (k & it & Hk & Hx & Hin);
        exists k, it; simpl in *; (split; [exact Hk|]); split; (lia || exact Hin). }
    destruct (in_windowb item co cs ws) eqn:Hb.
    + apply in_windowb_spec in Hb. rewrite elem_of_cons, Hrest. split.
      * intros [->|(k & it & Hk & Hx & Hin)].
        -- exists O, item. simpl. split; [reflexivity|]. split; [lia|exact Hb].
        -- exists (S k), it. auto.
      * intros ([|k] & it & Hk & Hx & Hin).
        -- left. simpl in Hx. lia.
        -- right. exists k, it. auto.
    + apply in_windowb_false in Hb. rewrite Hrest. split.
      * intros (k & it & Hk & Hx & Hin). exists (S k), it. auto.
      * intros ([|k] & it & Hk & Hx & Hin).
        -- simpl in Hk. injection Hk as ->. contradiction.
        -- exists k, it. auto.
Qed.

Lemma window_indices_sorted (items : list Z) :
  forall i0 : Z, StronglySorted Z.lt (window_indices i0 items co cs ws).
Proof.
  induction items as [|item rest IH]; intros i0; simpl.
  - constructor.
  - destruct (in_windowb item co cs ws); [|apply IH].
    constructor; [apply IH|].
    apply Forall_forall. intros x Hx.
    apply window_indices_elem in Hx as (k & _ & _ & -> & _). lia.
Qed.

Lemma window_indices_length (items : list Z) :
  forall i0 : Z,
    length (window_indices i0 items co cs ws)
    = length (filter (fun item => in_window item co cs ws) items).
Proof.
  induction items as [|item rest IH]; intros i0; simpl; [reflexivity|].
  rewrite filter_cons.
  destruct (in_windowb item co cs ws) eqn:Hb.
  - apply in_windowb_spec in Hb.
    destruct (decide (in_window item co cs ws)) as [_|Hn]; [|contradiction].
    simpl. f_equal. apply IH.
  - apply in_windowb_false in Hb.
    destruct (decide (in_window item co cs ws)) as [Hy|_]; [contradiction|].
    apply IH.
Qed.

Lemma window_indices_length_le (items : list Z) (i0 : Z) :
  (length (window_indices i0 items co cs ws) <= length items)%nat.
Proof.
  revert i0. induction items as [|item rest IH]; intros i0; simpl; [lia|].
  destruct (in_windowb item co cs ws); simpl; specialize (IH (i0 + 1)); lia.
Qed.

End WindowIndices.

(** ** The scan *)

Section Scan.

Variable items : list Z.
Variables co cs ws : Z.

Hypothesis items_int64 : Forall in_int64 items.
Hypothesis items_count_int32 : in_int32 (Z.of_nat (length items)).
Hypothesis co_int32 : in_int32 co.
Hypothesis cs_int32 : in_int32 cs.
Hypothesis ws_int32 : in_int32 ws.

(** One iteration at index [length pre], with [rc] indices stored so far. *)
Lemma scan_body_at (pre rest : list Z) (item : Z) (rc : nat) (res : list Z) :
  items = pre ++ item :: rest ->
  (rc <= length pre)%nat ->
  (length items <= length res)%nat ->
  scan_body items co cs ws
    (mk_scan_state (Z.of_nat (length pre)) (Z.of_nat rc) res)
  = Some (if in_windowb item co cs ws
          then mk_scan_state (Z.of_nat (length pre) + 1) (Z.of_nat rc + 1)
                 (<[rc := Z.of_nat (length pre)]> res)
          else mk_scan_state (Z.of_nat (length pre) + 1) (Z.of_nat rc) res).
Proof.
  intros Hsplit Hrc Hres.
  assert (Hlen : length items = (length pre + S (length rest))%nat).
  { rewrite Hsplit, length_app. reflexivity. }
  assert (Hitem : in_int64 item).
  { rewrite Forall_forall in items_int64. apply items_int64.
    rewrite Hsplit. apply elem_of_app. right. apply elem_of_cons. by left. }
  unfold in_int32 in items_count_int32.
  unfold scan_body, read, write. cbn [st_i st_result_count st_result].
  destruct (Z.ltb_spec (Z.of_nat (length pre)) 0) as [Hneg|_]; [lia|].
  rewrite Nat2Z.id, Hsplit, (list_lookup_middle pre rest item) by reflexivity.
  rewrite (is_item_in_window_int32 item co cs ws) by assumption.
  rewrite (wrap32_small (Z.of_nat (length pre) + 1)) by (unfold in_int32; lia).
  destruct (in_windowb item co cs ws); cbn [Z.eqb]; [|reflexivity].
  destruct (Z.leb_spec 0 (Z.of_nat rc)) as [_|Hneg]; [|lia].
  destruct (Z.ltb_spec (Z.of_nat rc) (Z.of_nat (length res))) as [_|Hout];
    [|lia].
  cbn [andb]. rewrite Nat2Z.id.
  rewrite (wrap32_small (Z.of_nat rc + 1)) by (unfold in_int32; lia).
  reflexivity.
Qed.

(** The loop, entered at index [length pre] with [rc] indices stored, runs
    to the end of the array and stores the indices of [rest] that are in
    the window after the [rc] already there. *)
Lemma scan_loop_run (rest : list Z) :
  forall (pre : list Z) (rc : nat) (res : list Z) (fuel : nat),
    items = pre ++ rest ->
    (length rest < fuel)%nat ->
    (rc <= length pre)%nat ->
    (length items <= length res)%nat ->
    let found := window_indices (Z.of_nat (length pre)) rest co cs ws in
    scan_loop fuel items (Z.of_nat (length items)) co cs ws
      (mk_scan_state (Z.of_nat (length pre)) (Z.of_nat rc) res)
    = Done (mk_scan_state (Z.of_nat (length items))
              (Z.of_nat (rc + length found))
              (take rc res ++ found ++ drop (rc + length found) res)).
Proof.
  induction rest as [|item rest IH]; intros pre rc res fuel Hsplit Hfuel Hrc Hres;
    (destruct fuel as [|fuel]; [simpl in Hfuel; lia|]).
  - rewrite app_nil_r in Hsplit. subst pre. simpl.
    rewrite Z.ltb_irrefl, Nat.add_0_r, take_drop. reflexivity.
  - assert (Hlen : length items = (length pre + S (length rest))%nat).
    { rewrite Hsplit, length_app. reflexivity. }
    cbn [scan_loop st_i].
    destruct (Z.ltb_spec (Z.of_nat (length pre)) (Z.of_nat (length items)))
      as [_|Hge]; [|lia].
    rewrite (scan_body_at pre rest item rc res Hsplit Hrc Hres).
    assert (Hsplit' : items = (pre ++ [item]) ++ rest).
    { rewrite <- app_assoc. exact Hsplit. }
    assert (Hpre' : Z.of_nat (length (pre ++ [item])) = Z.of_nat (length pre) + 1).
    { rewrite length_app. simpl. lia. }
    simpl in Hfuel. cbn [window_indices].
    destruct (in_windowb item co cs ws).
    + replace (Z.of_nat rc + 1) with (Z.of_nat (S rc)) by lia.
      rewrite <- Hpre'.
      rewrite (IH (pre ++ [item]) (S rc) _ fuel Hsplit');
        [|lia|rewrite length_app; simpl; lia|rewrite length_insert; exact Hres].
      rewrite Hpre'. cbn zeta. cbn [length].
      set (found := window_indices (Z.of_nat (length pre) + 1) rest co cs ws).
      replace (S rc + length found)%nat with (rc + S (length found))%nat by lia.
      do 2 f_equal.
      rewrite (take_S_r _ rc (Z.of_nat (length pre)))
        by (apply list_lookup_insert_eq; lia).
      rewrite take_insert_ge by lia.
      rewrite drop_insert_lt by lia.
      rewrite <- !app_assoc. reflexivity.
    + rewrite <- Hpre'.
      rewrite (IH (pre ++ [item]) rc res fuel Hsplit');
        [|lia|rewrite length_app; simpl; lia|exact Hres].
      rewrite Hpre'. reflexivity.
Qed.

(** The exported function on an array of [items_count] items and a result
    array that is at least as long. *)
Lemma scan_result (fuel : nat) (result : list Z) :
  (length items <= length result)%nat ->
  (length items < fuel)%nat ->
  let found := window_indices 0 items co cs ws in
  get_item_indices_in_window fuel items result
    (Z.of_nat (length items)) co cs ws
  = Done (Z.of_nat (length found),
          found ++ drop (length found) result).
Proof.
  intros Hres Hfuel. unfold get_item_indices_in_window.
  pose proof (scan_loop_run items [] O result fuel eq_refl Hfuel
                (Nat.le_refl _) Hres) as Hrun.
  cbn zeta in Hrun. simpl length in Hrun. change (Z.of_nat 0) with 0 in Hrun.
  rewrite Hrun. reflexivity.
Qed.

End Scan.

(** ** Claims about the scan *)

Section ScanClaims.

Lemma window_indices_index (items : list Z) (co cs ws i : Z) :
  i ∈ window_indices 0 items co cs ws
  <-> exists item : Z,
        0 <= i /\ items !! Z.to_nat i = Some item /\ in_window item co cs ws.
Proof.
  rewrite window_indices_elem. split.
  - intros (k & item & Hk & -> & Hin). exists item.
    rewrite Z.add_0_l, Nat2Z.id. split; [lia|]. split; assumption.
  - intros (item & Hi & Hk & Hin). exists (Z.to_nat i), item.
    split; [exact Hk|]. split; [lia|exact Hin].
Qed.

(** What a call returns on a well-formed input: the count, and a result
    array that starts with the specified indices and is otherwise as it
    was. *)
Lemma scan_found (fuel : nat) (items result : list Z) (items_count co cs ws : Z) :
  Forall in_int64 items ->
  in_int32 items_count ->
  items_count = Z.of_nat (length items) ->
  (length items <= length result)%nat ->
  in_int32 co -> in_int32 cs -> in_int32 ws ->
  (Z.to_nat items_count < fuel)%nat ->
  exists (count : Z) (result' : list Z),
    get_item_indices_in_window fuel items result items_count co cs ws
    = Done (count, result')
    /\ count = Z.of_nat (length (window_indices 0 items co cs ws))
    /\ take (Z.to_nat count) result' = window_indices 0 items co cs ws
    /\ drop (Z.to_nat count) result' = drop (Z.to_nat count) result
    /\ length result' = length result.
Proof.
  intros Hitems Hcount -> Hres Hco Hcs Hws Hfuel.
  rewrite Nat2Z.id in Hfuel.
  set (found := window_indices 0 items co cs ws).
  pose proof (window_indices_length_le co cs ws items 0) as Hle.
  fold found in Hle.
  exists (Z.of_nat (length found)), (found ++ drop (length found) result).
  split; [apply scan_result; assumption|].
  split; [reflexivity|]. rewrite Nat2Z.id.
  split; [apply take_app_length|].
  split; [rewrite drop_app_length; reflexivity|].
  rewrite length_app, length_drop. lia.
Qed.

(** C1: on an array of [items_count] items and a result array at least as
    long, with [int] cursor values, the call returns the number of items
    that are in the window, and [result[0..count)] holds exactly the
    indices of those items in strictly ascending order; the rest of the
    result array is untouched, and the count is 0 when no item is in the
    window. *)
Theorem get_item_indices_in_window_correct
    (fuel : nat) (items result : list Z) (items_count co cs ws : Z) :
  Forall in_int64 items ->
  in_int32 items_count ->
  items_count = Z.of_nat (length items) ->
  (length items <= length result)%nat ->
  in_int32 co -> in_int32 cs -> in_int32 ws ->
  (Z.to_nat items_count < fuel)%nat ->
  exists (count : Z) (result' : list Z),
    get_item_indices_in_window fuel items result items_count co cs ws
    = Done (count, result')
    /\ count
       = Z.of_nat (length (filter (fun item => in_window item co cs ws) items))
    /\ Z.of_nat (length (take (Z.to_nat count) result')) = count
    /\ (forall i : Z,
          i ∈ take (Z.to_nat count) result'
          <-> exists item : Z,
                0 <= i /\ items !! Z.to_nat i = Some item
                /\ in_window item co cs ws)
    /\ StronglySorted Z.lt (take (Z.to_nat count) result')
    /\ take (Z.to_nat count) result' = window_indices 0 items co cs ws
    /\ drop (Z.to_nat count) result' = drop (Z.to_nat count) result
    /\ length result' = length result
    /\ ((forall item : Z, item ∈ items -> ~ in_window item co cs ws) ->
        count = 0).
Proof.
  intros Hitems Hcount Heq Hres Hco Hcs Hws Hfuel.
  destruct (scan_found fuel items result items_count co cs ws
              Hitems Hcount Heq Hres Hco Hcs Hws Hfuel)
    as (count & result' & Hrun & Hc & Htake & Hdrop & Hlen).
  exists count, result'.
  split; [exact Hrun|].
  split; [rewrite Hc, window_indices_length; reflexivity|].
  split; [rewrite Htake; symmetry; exact Hc|].
  split; [intros i; rewrite Htake; apply window_indices_index|].
  split; [rewrite Htake; apply window_indices_sorted|].
  split; [exact Htake|]. split; [exact Hdrop|]. split; [exact Hlen|].
  intros Hnone. rewrite Hc, window_indices_length.
  replace (filter (fun item => in_window item co cs ws) items) with (@nil Z);
    [reflexivity|].
  symmetry. apply elem_of_nil_inv. intros x Hx.
  apply list_elem_of_filter in Hx as [Hin Hx]. exact (Hnone x Hx Hin).
Qed.

Lemma get_item_indices_in_window_correct_witness :
  Forall in_int64 adjacent_items
  /\ in_int32 3 /\ in_int32 10 /\ in_int32 0
  /\ get_item_indices_in_window 4 adjacent_items [0; 0; 0] 3 10 10 0
     = Done (3, [0; 1; 2])
  /\ exists (count : Z) (result' : list Z),
       get_item_indices_in_window 4 adjacent_items [0; 0; 0] 3 10 10 0
       = Done (count, result')
       /\ count
          = Z.of_nat
              (length (filter (fun item => in_window item 10 10 0)
                              adjacent_items)).
Proof.
  assert (Hitems : Forall in_int64 adjacent_items)
    by (repeat first [apply Forall_nil_2
                     | apply Forall_cons_2; [vm_compute; split; congruence|]]).
  assert (H3 : in_int32 3) by (unfold in_int32; lia).
  assert (H10 : in_int32 10) by (unfold in_int32; lia).
  assert (H0 : in_int32 0) by (unfold in_int32; lia).
  split; [exact Hitems|]. split; [exact H3|]. split; [exact H10|].
  split; [exact H0|]. split; [reflexivity|].
  destruct (get_item_indices_in_window_correct 4 adjacent_items [0; 0; 0]
              3 10 10 0 Hitems H3 eq_refl (Nat.le_refl 3) H10 H10 H0
              (Nat.lt_succ_diag_r 3))
    as (count & result' & Hrun & Hcount & _).
  exists count, result'. split; [exact Hrun | exact Hcount].
Defined.

(** A strictly ascending list without gaps is a run of consecutive
    integers. *)
Lemma sorted_contiguous_seqZ (l : list Z) :
  StronglySorted Z.lt l -> contiguous_run l ->
  l = seqZ (hd 0 l) (Z.of_nat (length l)).
Proof.
  induction l as [|a l IH]; intros Hsorted Hrun; [reflexivity|].
  apply StronglySorted_inv in Hsorted as [Hsorted Hall].
  rewrite Forall_forall in Hall.
  assert (Hrun' : contiguous_run l).
  { intros i j k Hi Hk Hij.
    assert (Hj : j ∈ a :: l)
      by (apply (Hrun i j k); [right; exact Hi | right; exact Hk | exact Hij]).
    apply elem_of_cons in Hj as [->|Hj]; [|exact Hj].
    specialize (Hall i Hi). lia. }
  specialize (IH Hsorted Hrun').
  cbn [hd length]. rewrite seqZ_cons by lia. f_equal.
  replace (Z.pred (Z.of_nat (S (length l)))) with (Z.of_nat (length l)) by lia.
  destruct l as [|b l]; [reflexivity|].
  cbn [hd] in IH. rewrite IH at 1. f_equal.
  assert (Hab : a < b) by (apply Hall; left).
  assert (Hnext : a + 1 ∈ a :: b :: l).
  { apply (Hrun a (a + 1) b); [left | right; left | lia]. }
  apply elem_of_cons in Hnext as [Heq|Hnext]; [lia|].
  apply elem_of_cons in Hnext as [Heq|Hnext]; [lia|].
  apply StronglySorted_inv in Hsorted as [_ Hall'].
  rewrite Forall_forall in Hall'. specialize (Hall' (a + 1) Hnext). lia.
Qed.

(** C4 as stated fails: the offsets 0, 5, 50 of [overlapping_items] never
    decrease, yet for the window [40, 60] the call reports the indices 0
    and 2 without the index 1 between them. *)
Lemma offsets_nondecreasing_not_contiguous :
  Forall in_int64 overlapping_items
  /\ offsets_nondecreasing overlapping_items
  /\ get_item_indices_in_window 4 overlapping_items [0; 0; 0] 3 40 20 0
     = Done (2, [0; 2; 0])
  /\ ~ contiguous_run (take 2 [0; 2; 0]).
Proof.
  split.
  { repeat first [apply Forall_nil_2
                 | apply Forall_cons_2; [vm_compute; split; congruence|]]. }
  split.
  { intros i j a b Hij Hi Hj.
    destruct i as [|[|[|i]]]; destruct j as [|[|[|j]]];
      try lia; simpl in Hi, Hj; try discriminate;
      injection Hi as <-; injection Hj as <-; vm_compute; congruence. }
  split; [reflexivity|].
  intros Hrun.
  assert (H1 : 1 ∈ take 2 [0; 2; 0]).
  { apply (Hrun 0 1 2); [left | right; left | lia]. }
  simpl in H1.
  apply elem_of_cons in H1 as [H1|H1]; [lia|].
  apply elem_of_cons in H1 as [H1|H1]; [lia|].
  apply elem_of_nil in H1. exact H1.
Qed.

(** C4, amended: when the decoded offsets and the decoded end positions
    both never decrease along the array, the indices the call reports are
    strictly ascending and have no gap: they are the consecutive integers
    from the first of them. *)
Theorem monotone_items_contiguous_run
    (fuel : nat) (items result : list Z) (items_count co cs ws : Z) :
  Forall in_int64 items ->
  in_int32 items_count ->
  items_count = Z.of_nat (length items) ->
  (length items <= length result)%nat ->
  in_int32 co -> in_int32 cs -> in_int32 ws ->
  (Z.to_nat items_count < fuel)%nat ->
  offsets_nondecreasing items ->
  ends_nondecreasing items ->
  exists (count : Z) (result' : list Z),
    get_item_indices_in_window fuel items result items_count co cs ws
    = Done (count, result')
    /\ contiguous_run (take (Z.to_nat count) result')
    /\ StronglySorted Z.lt (take (Z.to_nat count) result')
    /\ take (Z.to_nat count) result'
       = seqZ (hd 0 (take (Z.to_nat count) result')) count.
Proof.
  intros Hitems Hcount Heq Hres Hco Hcs Hws Hfuel Hoffs Hends.
  destruct (scan_found fuel items result items_count co cs ws
              Hitems Hcount Heq Hres Hco Hcs Hws Hfuel)
    as (count & result' & Hrun & Hc & Htake & _).
  exists count, result'. split; [exact Hrun|]. rewrite Htake.
  assert (Hcontig : contiguous_run (window_indices 0 items co cs ws)).
  { intros i j k Hi Hk Hijk.
    apply window_indices_index in Hi as (a & Hi0 & Ha & [_ Hend]).
    apply window_indices_index in Hk as (c & Hk0 & Hc' & [Hoff _]).
    assert (Hj : is_Some (items !! Z.to_nat j)).
    { apply lookup_lt_is_Some. apply lookup_lt_Some in Hc'. lia. }
    destruct Hj as [b Hb].
    apply window_indices_index. exists b.
    split; [lia|]. split; [exact Hb|]. split.
    - pose proof (Hoffs (Z.to_nat j) (Z.to_nat k) b c ltac:(lia) Hb Hc'). lia.
    - pose proof (Hends (Z.to_nat i) (Z.to_nat j) a b ltac:(lia) Ha Hb). lia. }
  split; [exact Hcontig|].
  split; [apply window_indices_sorted|].
  rewrite Hc. apply sorted_contiguous_seqZ;
    [apply window_indices_sorted | exact Hcontig].
Qed.

Lemma monotone_items_contiguous_run_witness :
  Forall in_int64 adjacent_items
  /\ offsets_nondecreasing adjacent_items
  /\ ends_nondecreasing adjacent_items
  /\ exists (count : Z) (result' : list Z),
       get_item_indices_in_window 4 adjacent_items [0; 0; 0] 3 25 1 0
       = Done (count, result')
       /\ contiguous_run (take (Z.to_nat count) result').
Proof.
  assert (Hitems : Forall in_int64 adjacent_items)
    by (repeat first [apply Forall_nil_2
                     | apply Forall_cons_2; [vm_compute; split; congruence|]]).
  assert (H3 : in_int32 3) by (unfold in_int32; lia).
  assert (H25 : in_int32 25) by (unfold in_int32; lia).
  assert (H1 : in_int32 1) by (unfold in_int32; lia).
  assert (H0 : in_int32 0) by (unfold in_int32; lia).
  assert (Hoffs : offsets_nondecreasing adjacent_items).
  { intros i j a b Hij Hi Hj.
    destruct i as [|[|[|i]]]; destruct j as [|[|[|j]]];
      try lia; simpl in Hi, Hj; try discriminate;
      injection Hi as <-; injection Hj as <-; vm_compute; congruence. }
  assert (Hends : ends_nondecreasing adjacent_items).
  { intros i j a b Hij Hi Hj.
    destruct i as [|[|[|i]]]; destruct j as [|[|[|j]]];
      try lia; simpl in Hi, Hj; try discriminate;
      injection Hi as <-; injection Hj as <-; vm_compute; congruence. }
  split; [exact Hitems|]. split; [exact Hoffs|]. split; [exact Hends|].
  destruct (monotone_items_contiguous_run 4 adjacent_items [0; 0; 0]
              3 25 1 0 Hitems H3 eq_refl (Nat.le_refl 3) H25 H1 H0
              (Nat.lt_succ_diag_r 3) Hoffs Hends)
    as (count & result' & Hrun & Hcontig & _).
  exists count, result'. split; [exact Hrun | exact Hcontig].
Defined.

End ScanClaims.

(** ** Termination *)

Section Termination.

Variable items : list Z.
Variables items_count co cs ws : Z.

Hypothesis items_count_int32 : in_int32 items_count.

Lemma scan_body_next (s s' : scan_state) :
  scan_body items co cs ws s = Some s' -> st_i s' = wrap32 (st_i s + 1).
Proof.
  unfold scan_body. intros Hbody.
  destruct (read items (st_i s)) as [item|]; [|discriminate Hbody].
  destruct (is_item_in_window item co cs ws =? 0).
  - injection Hbody as <-. reflexivity.
  - destruct (write (st_result s) (st_result_count s) (st_i s));
      [|discriminate Hbody].
    injection Hbody as <-. reflexivity.
Qed.

(** An iteration entered at a non-negative [i] leaves [i + 1]. *)
Lemma scan_step_next (s s' : scan_state) :
  0 <= st_i s ->
  scan_step items items_count co cs ws s s' ->
  st_i s' = st_i s + 1 /\ st_i s' <= items_count.
Proof.
  intros Hnonneg Hstep. destruct Hstep as [s s' Hlt Hbody].
  apply scan_body_next in Hbody. rewrite Hbody.
  unfold in_int32 in items_count_int32.
  rewrite wrap32_small by (unfold in_int32; lia). lia.
Qed.

(** After [k] iterations from [i = 0] the loop variable is [k], and it has
    not passed [items_count]. *)
Lemma nsteps_index (result : list Z) (k : nat) :
  forall s' : scan_state,
    nsteps (scan_step items items_count co cs ws) k
           (mk_scan_state 0 0 result) s' ->
    st_i s' = Z.of_nat k /\ (k <= Z.to_nat items_count)%nat.
Proof.
  induction k as [|k IH]; intros s' Hsteps.
  - inversion Hsteps; subst. simpl. lia.
  - apply nsteps_inv_r in Hsteps as (s & Hsteps & Hstep).
    destruct (IH s Hsteps) as [Hi _].
    destruct (scan_step_next s s' ltac:(lia) Hstep) as [Hnext Hle]. lia.
Qed.

(** The function follows the steps of the transition system. *)
Lemma scan_loop_nsteps (k : nat) (s s' : scan_state) :
  nsteps (scan_step items items_count co cs ws) k s s' ->
  forall fuel : nat,
    scan_loop (k + fuel) items items_count co cs ws s
    = scan_loop fuel items items_count co cs ws s'.
Proof.
  induction 1 as [s|k s s1 s' Hstep _ IH]; intros fuel; [reflexivity|].
  destruct Hstep as [s s1 Hlt Hbody]. cbn [Nat.add scan_loop].
  destruct (Z.ltb_spec (st_i s) items_count) as [_|Hge]; [|lia].
  rewrite Hbody. apply IH.
Qed.

(** With more fuel than iterations left, the loop ends with a value or a
    fault, and more fuel does not change how. *)
Lemma scan_loop_enough_fuel (fuel : nat) :
  forall (s : scan_state) (fuel' : nat),
    0 <= st_i s ->
    (Z.to_nat (items_count - st_i s) < fuel)%nat ->
    (Z.to_nat (items_count - st_i s) < fuel')%nat ->
    scan_loop fuel items items_count co cs ws s <> OutOfFuel
    /\ scan_loop fuel' items items_count co cs ws s
       = scan_loop fuel items items_count co cs ws s.
Proof.
  induction fuel as [|fuel IH]; intros s fuel' Hnonneg Hfuel Hfuel'; [lia|].
  destruct fuel' as [|fuel']; [lia|]. cbn [scan_loop].
  destruct (Z.ltb_spec (st_i s) items_count) as [Hlt|Hge];
    [|split; [discriminate | reflexivity]].
  destruct (scan_body items co cs ws s) as [s'|] eqn:Hbody;
    [|split; [discriminate | reflexivity]].
  destruct (scan_step_next s s' Hnonneg (scan_step_iter _ _ _ _ _ s s' Hlt Hbody))
    as [Hnext _].
  apply IH; lia.
Qed.

End Termination.

Section TerminationClaims.

(** C10: every exported operation ends.  [make_item] and the two padding
    functions are straight-line code: total functions of the model, the
    padding functions ending in a value or, on an index outside the array,
    in a fault.  The scan, for every [int] [items_count] and whatever the
    arrays hold, ends in a value or a fault once it has [items_count + 1]
    units of fuel (more fuel changes nothing); no run of its loop from
    [i = 0] has more than [items_count] iterations, the function follows
    those iterations, and when [items_count <= 0] there is no iteration
    and the call returns 0 with the result array as it was. *)
Theorem operations_terminate
    (items result : list Z) (items_count co cs ws : Z) :
  in_int32 items_count ->
  get_item_indices_in_window (S (Z.to_nat items_count)) items result
    items_count co cs ws <> OutOfFuel
  /\ (forall fuel : nat,
        (Z.to_nat items_count < fuel)%nat ->
        get_item_indices_in_window fuel items result items_count co cs ws
        = get_item_indices_in_window (S (Z.to_nat items_count)) items result
            items_count co cs ws)
  /\ (forall (k : nat) (s' : scan_state),
        nsteps (scan_step items items_count co cs ws) k
               (mk_scan_state 0 0 result) s' ->
        (k <= Z.to_nat items_count)%nat
        /\ forall fuel : nat,
             scan_loop (k + fuel) items items_count co cs ws
               (mk_scan_state 0 0 result)
             = scan_loop fuel items items_count co cs ws s')
  /\ (items_count <= 0 ->
      get_item_indices_in_window (S (Z.to_nat items_count)) items result
        items_count co cs ws = Done (0, result)
      /\ forall s' : scan_state,
           ~ scan_step items items_count co cs ws
               (mk_scan_state 0 0 result) s')
  /\ (forall size offset : Z, exists packed : Z, make_item size offset = packed)
  /\ (forall first_item_index : Z,
        get_top_padding items first_item_index = None
        \/ exists v : Z, get_top_padding items first_item_index = Some v)
  /\ (forall total_items last_item_index : Z,
        get_bottom_padding items total_items last_item_index = None
        \/ exists v : Z,
             get_bottom_padding items total_items last_item_index = Some v).
Proof.
  intros Hcount.
  assert (Hfuel : forall fuel : nat,
            (Z.to_nat items_count < fuel)%nat ->
            scan_loop fuel items items_count co cs ws (mk_scan_state 0 0 result)
            <> OutOfFuel
            /\ scan_loop fuel items items_count co cs ws
                 (mk_scan_state 0 0 result)
               = scan_loop (S (Z.to_nat items_count)) items items_count
                   co cs ws (mk_scan_state 0 0 result)).
  { intros fuel Hlt.
    destruct (scan_loop_enough_fuel items items_count co cs ws Hcount
                (S (Z.to_nat items_count)) (mk_scan_state 0 0 result) fuel)
      as [Hne Heq]; cbn [st_i]; try lia.
    rewrite Heq. split; [exact Hne | reflexivity]. }
  split.
  { unfold get_item_indices_in_window.
    destruct (Hfuel (S (Z.to_nat items_count)) ltac:(lia)) as [Hne _].
    destruct (scan_loop _ _ _ _ _ _ _); [discriminate|discriminate|].
    contradiction Hne; reflexivity. }
  split.
  { intros fuel Hlt. unfold get_item_indices_in_window.
    destruct (Hfuel fuel Hlt) as [_ ->]. reflexivity. }
  split.
  { intros k s' Hsteps. split.
    - apply (nsteps_index items items_count co cs ws Hcount result k s' Hsteps).
    - apply scan_loop_nsteps. exact Hsteps. }
  split.
  { intros Hle. split.
    - unfold get_item_indices_in_window. cbn [scan_loop st_i].
      destruct (Z.ltb_spec 0 items_count) as [Hlt|_]; [lia|]. reflexivity.
    - intros s' Hstep. inversion Hstep as [s0 s1 Hlt Hbody]; subst.
      cbn [st_i] in Hlt. lia. }
  split; [intros size offset; eexists; reflexivity|].
  split.
  - intros i. destruct (get_top_padding items i) as [v|];
      [right; exists v; reflexivity | left; reflexivity].
  - intros t l. destruct (get_bottom_padding items t l) as [v|];
      [right; exists v; reflexivity | left; reflexivity].
Qed.

Lemma operations_terminate_witness :
  in_int32 3
  /\ get_item_indices_in_window 4 adjacent_items [0; 0; 0] 3 10 10 0
     <> OutOfFuel
  /\ get_item_indices_in_window 4 adjacent_items [] 3 10 10 0 <> OutOfFuel.
Proof.
  assert (H3 : in_int32 3) by (unfold in_int32; lia).
  split; [exact H3|]. split.
  - exact (proj1 (operations_terminate adjacent_items [0; 0; 0] 3 10 10 0 H3)).
  - exact (proj1 (operations_terminate adjacent_items [] 3 10 10 0 H3)).
Defined.

End TerminationClaims.

(** ** Claims about the padding *)

Section Padding.

Lemma read_valid (a : list Z) (i v : Z) :
  0 <= i -> a !! Z.to_nat i = Some v -> read a i = Some v.
Proof.
  intros Hi Hv. unfold read.
  destruct (Z.ltb_spec i 0) as [Hneg|_]; [lia | exact Hv].
Qed.

(** C7 as stated fails: the only item of [high_offset_items] decodes to
    the offset [2^32 - 1], which is not an [int]; the call returns -1. *)
Lemma get_top_padding_high_offset :
  Forall in_int64 high_offset_items
  /\ high_offset_items !! 0%nat = Some 0xFFFFFFFF
  /\ get_item_offset 0xFFFFFFFF = 4294967295
  /\ get_top_padding high_offset_items 0 = Some (-1)
  /\ get_top_padding high_offset_items 0 <> Some (get_item_offset 0xFFFFFFFF).
Proof.
  split.
  { apply Forall_cons_2; [vm_compute; split; congruence | apply Forall_nil_2]. }
  repeat split; try reflexivity. discriminate.
Qed.

(** C7, amended: for a valid index, the call returns the decoded offset of
    the item converted to [int]: the decoded offset itself when it is
    below [2^31], and the decoded offset minus [2^32] otherwise. *)
Theorem get_top_padding_value (items : list Z) (first_item_index item : Z) :
  0 <= first_item_index ->
  items !! Z.to_nat first_item_index = Some item ->
  get_top_padding items first_item_index
  = Some (wrap32 (get_item_offset item))
  /\ (get_item_offset item < 2 ^ 31 ->
      get_top_padding items first_item_index = Some (get_item_offset item))
  /\ (2 ^ 31 <= get_item_offset item ->
      get_top_padding items first_item_index
      = Some (get_item_offset item - 2 ^ 32)).
Proof.
  intros Hi Hitem. unfold get_top_padding.
  rewrite (read_valid items first_item_index item Hi Hitem).
  pose proof (get_item_offset_range item) as Hrange.
  split; [reflexivity|]. split; intros Hcase; f_equal.
  - apply wrap32_small. unfold in_int32. lia.
  - unfold wrap32.
    replace (get_item_offset item + 2 ^ 31)
      with (get_item_offset item - 2 ^ 31 + 1 * 2 ^ 32) by lia.
    rewrite Z.mod_add by lia. rewrite Z.mod_small by lia. lia.
Qed.

Lemma get_top_padding_value_witness :
  0 <= 1
  /\ adjacent_items !! Z.to_nat 1 = Some (make_item 10 10)
  /\ get_top_padding adjacent_items 1 = Some 10.
Proof.
  assert (H1 : 0 <= 1) by lia.
  assert (H2 : adjacent_items !! Z.to_nat 1 = Some (make_item 10 10))
    by reflexivity.
  split; [exact H1|]. split; [exact H2|].
  destruct (get_top_padding_value adjacent_items 1 (make_item 10 10) H1 H2)
    as (_ & Hsmall & _).
  apply Hsmall. vm_compute. reflexivity.
Defined.

(** C6 as stated fails: in [long_items] the last item ends at [2^32 - 2]
    and the first at 0, so the specified padding below the first item is
    [2^32 - 2], which is not an [int]; the call returns -2. *)
Lemma get_bottom_padding_long_items :
  Forall in_int64 long_items
  /\ long_items !! 1%nat = Some (make_item 2147483647 2147483647)
  /\ long_items !! 0%nat = Some (make_item 0 0)
  /\ bottom_padding_value (make_item 2147483647 2147483647) (make_item 0 0)
     = 4294967294
  /\ get_bottom_padding long_items 2 0 = Some (-2)
  /\ get_bottom_padding long_items 2 0
     <> Some (bottom_padding_value (make_item 2147483647 2147483647)
                                   (make_item 0 0)).
Proof.
  split.
  { repeat first [apply Forall_nil_2
                 | apply Forall_cons_2; [vm_compute; split; congruence|]]. }
  repeat split; try reflexivity. discriminate.
Qed.

(** C6, amended: for [total_items >= 1] within the array and a valid
    [last_item_index <= total_items - 1], the call returns the difference
    between the end of [items[total_items - 1]] and the end of
    [items[last_item_index]] converted to [int]: the difference itself
    whenever it is an [int] value. *)
Theorem get_bottom_padding_value
    (items : list Z) (total_items last_item_index : Z)
    (last_item last_item_in_window : Z) :
  Forall in_int64 items ->
  in_int32 total_items ->
  1 <= total_items <= Z.of_nat (length items) ->
  0 <= last_item_index <= total_items - 1 ->
  items !! Z.to_nat (total_items - 1) = Some last_item ->
  items !! Z.to_nat last_item_index = Some last_item_in_window ->
  get_bottom_padding items total_items last_item_index
  = Some (wrap32 (bottom_padding_value last_item last_item_in_window))
  /\ (in_int32 (bottom_padding_value last_item last_item_in_window) ->
      get_bottom_padding items total_items last_item_index
      = Some (bottom_padding_value last_item last_item_in_window)).
Proof.
  intros Hitems Htotal Hrange Hindex Hlast Hvisible.
  assert (Hgoal : get_bottom_padding items total_items last_item_index
            = Some (wrap32 (bottom_padding_value last_item last_item_in_window))).
  { unfold get_bottom_padding, bottom_padding_value.
    unfold in_int32 in Htotal.
    rewrite (wrap32_small (total_items - 1)) by (unfold in_int32; lia).
    rewrite (read_valid items (total_items - 1) last_item) by (lia || assumption).
    rewrite (read_valid items last_item_index last_item_in_window)
      by (lia || assumption).
    pose proof (get_item_offset_range last_item) as Ho1.
    pose proof (get_item_offset_range last_item_in_window) as Ho2.
    pose proof (get_item_size_range last_item
                  (Forall_lookup_1 _ _ _ _ Hitems Hlast)) as Hs1.
    pose proof (get_item_size_range last_item_in_window
                  (Forall_lookup_1 _ _ _ _ Hitems Hvisible)) as Hs2.
    unfold in_int32 in Hs1, Hs2.
    rewrite (wrap64_small (get_item_offset last_item + get_item_size last_item))
      by (unfold in_int64; lia).
    rewrite (wrap64_small (_ - get_item_offset last_item_in_window))
      by (unfold in_int64; lia).
    rewrite (wrap64_small (_ - get_item_size last_item_in_window))
      by (unfold in_int64; lia).
    do 2 f_equal. lia. }
  split; [exact Hgoal|].
  intros Hfits. rewrite Hgoal, wrap32_small by exact Hfits. reflexivity.
Qed.

Lemma get_bottom_padding_value_witness :
  Forall in_int64 adjacent_items
  /\ in_int32 3
  /\ 1 <= 3 <= Z.of_nat (length adjacent_items)
  /\ 0 <= 1 <= 3 - 1
  /\ get_bottom_padding adjacent_items 3 1 = Some 10.
Proof.
  assert (Hitems : Forall in_int64 adjacent_items)
    by (repeat first [apply Forall_nil_2
                     | apply Forall_cons_2; [vm_compute; split; congruence|]]).
  assert (H3 : in_int32 3) by (unfold in_int32; lia).
  assert (Hrange : 1 <= 3 <= Z.of_nat (length adjacent_items))
    by (simpl; lia).
  assert (Hindex : 0 <= 1 <= 3 - 1) by lia.
  split; [exact Hitems|]. split; [exact H3|]. split; [exact Hrange|].
  split; [exact Hindex|].
  destruct (get_bottom_padding_value adjacent_items 3 1
              (make_item 10 20) (make_item 10 10)
              Hitems H3 Hrange Hindex eq_refl eq_refl) as [_ Hfits].
  rewrite Hfits; [reflexivity|]. vm_compute. split; congruence.
Defined.

End Padding.

(** ** The worked examples of the specification *)

Section WorkedExamples.

(** Three adjacent items of size 10, cursor at 10 of size 10, no margin:
    the window is [10, 20] and all three items touch it. *)
Example adjacent_items_all_in_window :
  get_item_indices_in_window 4 adjacent_items [0; 0; 0] 3 10 10 0
  = Done (3, [0; 1; 2]).
Proof. reflexivity. Qed.

(** The whole sequence visible: no padding on either side. *)
Example adjacent_items_no_padding :
  get_top_padding adjacent_items 0 = Some 0
  /\ get_bottom_padding adjacent_items 3 2 = Some 0.
Proof. split; reflexivity. Qed.

(** Only the middle item visible: 10 above it and 10 below it. *)
Example adjacent_items_middle_padding :
  get_top_padding adjacent_items 1 = Some 10
  /\ get_bottom_padding adjacent_items 3 1 = Some 10.
Proof. split; reflexivity. Qed.

(** No item near the window: the count is 0 and nothing is written. *)
Example adjacent_items_none_in_window :
  get_item_indices_in_window 4 adjacent_items [7; 8; 9] 3 100 10 5
  = Done (0, [7; 8; 9]).
Proof. reflexivity. Qed.

(** A result array shorter than the matches is overrun, and a call needs
    one unit of fuel more than there are items. *)
Example adjacent_items_short_result :
  get_item_indices_in_window 4 adjacent_items [0; 0] 3 10 10 0 = Fault
  /\ get_item_indices_in_window 3 adjacent_items [0; 0; 0] 3 10 10 0
     = OutOfFuel.
Proof. split; reflexivity. Qed.

End WorkedExamples.

(** ** Further properties of the codec *)

Section CodecProperties.

(** The packed value of a negative offset is the offset itself: the sign
    extension fills the high word. *)
Lemma make_item_sign_extended (size offset : Z) :
  in_int32 size -> - 2 ^ 31 <= offset < 0 -> make_item size offset = offset.
Proof.
  intros Hs Ho. destruct (make_item_fields size offset Hs) as [Hsize Hoff].
  rewrite (item_fields (make_item size offset)), Hsize, Hoff.
  rewrite shiftr32_neg, Z.lor_m1_r by lia.
  rewrite <- (Z.mod_unique offset (2 ^ 32) (-1) (offset + 2 ^ 32)); lia.
Qed.

(** X1: on non-negative offsets [make_item] loses nothing: two calls that
    return the same packed value were given the same size and the same
    offset. *)
Theorem make_item_injective (size1 offset1 size2 offset2 : Z) :
  in_int32 size1 -> in_int32 offset1 -> 0 <= offset1 ->
  in_int32 size2 -> in_int32 offset2 -> 0 <= offset2 ->
  make_item size1 offset1 = make_item size2 offset2 ->
  size1 = size2 /\ offset1 = offset2.
Proof.
  unfold in_int32 at 2 4. intros Hs1 Ho1 Hn1 Hs2 Ho2 Hn2 Heq.
  destruct (make_item_packed_value size1 offset1 Hs1 ltac:(lia)) as [_ H1].
  destruct (make_item_packed_value size2 offset2 Hs2 ltac:(lia)) as [_ H2].
  rewrite H1, H2 in Heq. lia.
Qed.

Lemma make_item_injective_witness :
  in_int32 3 /\ in_int32 4 /\ 0 <= 4
  /\ (make_item 3 4 = make_item 3 4 -> 3 = 3 /\ 4 = 4).
Proof.
  assert (H3 : in_int32 3) by (unfold in_int32; lia).
  assert (H4 : in_int32 4) by (unfold in_int32; lia).
  assert (Hn : 0 <= 4) by lia.
  split; [exact H3|]. split; [exact H4|]. split; [exact Hn|].
  exact (make_item_injective 3 4 3 4 H3 H4 Hn H3 H4 Hn).
Defined.

(** X2: decoding and packing again gives the packed value back, for every
    [long long] whose low word has bit 31 clear (so that its decoded
    offset is an [int]). *)
Theorem make_item_of_decoded (item : Z) :
  in_int64 item ->
  get_item_offset item < 2 ^ 31 ->
  in_int32 (get_item_size item)
  /\ in_int32 (get_item_offset item)
  /\ make_item (get_item_size item) (get_item_offset item) = item.
Proof.
  intros Hitem Hlow.
  pose proof (get_item_offset_range item) as Hrange.
  pose proof (get_item_size_range item Hitem) as Hsize.
  split; [exact Hsize|]. split; [unfold in_int32; lia|].
  destruct (make_item_packed_value (get_item_size item) (get_item_offset item)
              Hsize Hrange) as [_ Hval].
  rewrite Hval. symmetry. apply item_fields.
Qed.

Lemma make_item_of_decoded_witness :
  in_int64 (-4294967289)
  /\ get_item_offset (-4294967289) < 2 ^ 31
  /\ make_item (get_item_size (-4294967289)) (get_item_offset (-4294967289))
     = -4294967289.
Proof.
  assert (H1 : in_int64 (-4294967289)) by (unfold in_int64; lia).
  assert (H2 : get_item_offset (-4294967289) < 2 ^ 31) by reflexivity.
  split; [exact H1|]. split; [exact H2|].
  exact (proj2 (proj2 (make_item_of_decoded (-4294967289) H1 H2))).
Defined.

End CodecProperties.

(** ** Further properties of the scan *)

Section ScanSegments.

Variable items : list Z.
Variables items_count co cs ws : Z.

Hypothesis items_int64 : Forall in_int64 items.
Hypothesis items_count_int32 : in_int32 items_count.
Hypothesis co_int32 : in_int32 co.
Hypothesis cs_int32 : in_int32 cs.
Hypothesis ws_int32 : in_int32 ws.

(** One iteration at an index below [items_count], whatever the length of
    the result array: the store happens only if slot [rc] exists. *)
Lemma scan_body_slot (pre rest : list Z) (item : Z) (rc : nat) (res : list Z) :
  items = pre ++ item :: rest ->
  Z.of_nat (length pre) < items_count ->
  (rc <= length pre)%nat ->
  scan_body items co cs ws
    (mk_scan_state (Z.of_nat (length pre)) (Z.of_nat rc) res)
  = if in_windowb item co cs ws
    then if decide (rc < length res)%nat
         then Some (mk_scan_state (Z.of_nat (length pre) + 1)
                      (Z.of_nat rc + 1) (<[rc := Z.of_nat (length pre)]> res))
         else None
    else Some (mk_scan_state (Z.of_nat (length pre) + 1) (Z.of_nat rc) res).
Proof.
  intros Hsplit Hlt Hrc.
  assert (Hitem : in_int64 item).
  { rewrite Forall_forall in items_int64. apply items_int64.
    rewrite Hsplit. apply elem_of_app. right. apply elem_of_cons. by left. }
  unfold in_int32 in items_count_int32.
  unfold scan_body, read, write. cbn [st_i st_result_count st_result].
  destruct (Z.ltb_spec (Z.of_nat (length pre)) 0) as [Hneg|_]; [lia|].
  rewrite Nat2Z.id, Hsplit, (list_lookup_middle pre rest item) by reflexivity.
  rewrite (is_item_in_window_int32 item co cs ws) by assumption.
  rewrite (wrap32_small (Z.of_nat (length pre) + 1)) by (unfold in_int32; lia).
  destruct (in_windowb item co cs ws); cbn [Z.eqb]; [|reflexivity].
  destruct (Z.leb_spec 0 (Z.of_nat rc)) as [_|Hneg]; [|lia].
  destruct (decide (rc < length res)%nat) as [Hin|Hout].
  - destruct (Z.ltb_spec (Z.of_nat rc) (Z.of_nat (length res))) as [_|Hge];
      [|lia].
    cbn [andb]. rewrite Nat2Z.id.
    rewrite (wrap32_small (Z.of_nat rc + 1)) by (unfold in_int32; lia).
    reflexivity.
  - destruct (Z.ltb_spec (Z.of_nat rc) (Z.of_nat (length res))) as [Hlt'|_];
      [lia|reflexivity].
Qed.

(** The iterations over a segment [rest] of the array that lies below
    [items_count]: they store the indices of [rest] that are in the window
    if the result array has room for them, and run off its end if not. *)
Lemma scan_loop_segment (rest : list Z) :
  forall (pre tail : list Z) (rc : nat) (res : list Z) (fuel : nat),
    items = pre ++ rest ++ tail ->
    Z.of_nat (length pre + length rest) <= items_count ->
    (rc <= length pre)%nat ->
    (rc <= length res)%nat ->
    let found := window_indices (Z.of_nat (length pre)) rest co cs ws in
    scan_loop (length rest + fuel) items items_count co cs ws
      (mk_scan_state (Z.of_nat (length pre)) (Z.of_nat rc) res)
    = if decide (rc + length found <= length res)%nat
      then scan_loop fuel items items_count co cs ws
             (mk_scan_state (Z.of_nat (length pre + length rest))
                (Z.of_nat (rc + length found))
                (take rc res ++ found ++ drop (rc + length found) res))
      else Fault.
Proof.
  induction rest as [|item rest IH];
    intros pre tail rc res fuel Hsplit Hcount Hrc Hres.
  - cbn zeta. cbn [window_indices length Nat.add].
    rewrite !Nat.add_0_r. cbn [app]. rewrite take_drop.
    destruct (decide (rc <= length res)%nat) as [_|Hn]; [reflexivity|lia].
  - cbn [length] in Hcount. cbn [length Nat.add scan_loop st_i].
    destruct (Z.ltb_spec (Z.of_nat (length pre)) items_count) as [Hlt|Hge];
      [|lia].
    rewrite (scan_body_slot pre (rest ++ tail) item rc res Hsplit Hlt Hrc).
    assert (Hsplit' : items = (pre ++ [item]) ++ rest ++ tail).
    { rewrite <- app_assoc. exact Hsplit. }
    assert (Hpre' : Z.of_nat (length (pre ++ [item])) = Z.of_nat (length pre) + 1).
    { rewrite length_app. simpl. lia. }
    assert (Hlen' : (length (pre ++ [item]) + length rest
                     = length pre + S (length rest))%nat).
    { rewrite length_app. simpl. lia. }
    cbn zeta. cbn [window_indices].
    destruct (in_windowb item co cs ws).
    + cbn [length].
      destruct (decide (rc < length res)%nat) as [Hin|Hout].
      * replace (Z.of_nat rc + 1) with (Z.of_nat (S rc)) by lia.
        rewrite <- Hpre'.
        rewrite (IH (pre ++ [item]) tail (S rc) _ fuel Hsplit');
          [|lia|rewrite length_app; simpl; lia|rewrite length_insert; lia].
        rewrite Hpre', Hlen', length_insert. cbn zeta.
        set (found := window_indices (Z.of_nat (length pre) + 1) rest co cs ws).
        replace (S rc + length found)%nat with (rc + S (length found))%nat by lia.
        destruct (decide (rc + S (length found) <= length res)%nat);
          [|reflexivity].
        do 2 f_equal.
        rewrite (take_S_r _ rc (Z.of_nat (length pre)))
          by (apply list_lookup_insert_eq; lia).
        rewrite take_insert_ge by lia.
        rewrite drop_insert_lt by lia.
        rewrite <- !app_assoc. reflexivity.
      * destruct (decide (rc + S _ <= length res)%nat); [lia|reflexivity].
    + rewrite <- Hpre'.
      rewrite (IH (pre ++ [item]) tail rc res fuel Hsplit');
        [|lia|rewrite length_app; simpl; lia|exact Hres].
      rewrite Hpre', Hlen'. reflexivity.
Qed.

End ScanSegments.

Section ScanProperties.

(** The outcome of a call that is given at most as many items as the
    array holds: only the first [items_count] items count, and the result
    array needs one slot for each of them that is in the window. *)
Lemma scan_outcome
    (fuel : nat) (items result : list Z) (items_count co cs ws : Z) :
  Forall in_int64 items ->
  in_int32 items_count ->
  0 <= items_count <= Z.of_nat (length items) ->
  in_int32 co -> in_int32 cs -> in_int32 ws ->
  (Z.to_nat items_count < fuel)%nat ->
  let found :=
    window_indices 0 (take (Z.to_nat items_count) items) co cs ws in
  get_item_indices_in_window fuel items result items_count co cs ws
  = if decide (length found <= length result)%nat
    then Done (Z.of_nat (length found), found ++ drop (length found) result)
    else Fault.
Proof.
  intros Hitems Hcount Hrange Hco Hcs Hws Hfuel found.
  set (k := Z.to_nat items_count) in *.
  assert (Hk : length (take k items) = k) by (rewrite length_take; lia).
  assert (Hsplit : items = [] ++ take k items ++ drop k items)
    by (simpl; symmetry; apply take_drop).
  pose proof (scan_loop_segment items items_count co cs ws Hitems Hcount
                Hco Hcs Hws (take k items) [] (drop k items) O result
                (S (fuel - k - 1)) Hsplit) as Hrun.
  cbn zeta in Hrun. cbn [length Nat.add] in Hrun. rewrite Hk in Hrun.
  change (Z.of_nat 0) with 0 in Hrun. fold found in Hrun.
  replace (k + S (fuel - k - 1))%nat with fuel in Hrun by lia.
  unfold get_item_indices_in_window.
  rewrite Hrun by lia.
  destruct (decide (length found <= length result)%nat); [|reflexivity].
  cbn [scan_loop st_i firstn].
  destruct (Z.ltb_spec (Z.of_nat k) items_count) as [Hlt|_]; [lia|].
  reflexivity.
Qed.

Lemma window_indices_app (l1 l2 : list Z) (co cs ws : Z) :
  forall i : Z,
    window_indices i (l1 ++ l2) co cs ws
    = window_indices i l1 co cs ws
      ++ window_indices (i + Z.of_nat (length l1)) l2 co cs ws.
Proof.
  induction l1 as [|a l1 IH]; intros i.
  - simpl. rewrite Z.add_0_r. reflexivity.
  - cbn [app window_indices length]. rewrite IH.
    replace (i + 1 + Z.of_nat (length l1))
      with (i + Z.of_nat (S (length l1))) by lia.
    destruct (in_windowb a co cs ws); reflexivity.
Qed.

Lemma window_indices_shift (l : list Z) (co cs ws d : Z) :
  forall i : Z,
    window_indices (i + d) l co cs ws
    = (fun x => x + d) <$> window_indices i l co cs ws.
Proof.
  induction l as [|a l IH]; intros i; [reflexivity|].
  cbn [window_indices].
  replace (i + d + 1) with (i + 1 + d) by lia. rewrite IH.
  destruct (in_windowb a co cs ws); reflexivity.
Qed.

Lemma window_indices_grow (l : list Z) (co cs ws cs' ws' : Z) :
  cs <= cs' -> ws <= ws' ->
  forall i : Z,
    (length (window_indices i l co cs ws)
     <= length (window_indices i l co cs' ws'))%nat.
Proof.
  intros Hcs Hws. induction l as [|a l IH]; intros i; [reflexivity|].
  cbn [window_indices]. specialize (IH (i + 1)).
  destruct (in_windowb a co cs ws) eqn:Hb.
  - assert (Hb' : in_windowb a co cs' ws' = true).
    { apply in_windowb_spec. apply in_windowb_spec in Hb.
      unfold in_window in *. lia. }
    rewrite Hb'. simpl. lia.
  - destruct (in_windowb a co cs' ws'); simpl; lia.
Qed.

(** X3: the items from index [items_count] on are never looked at: the
    call ends exactly as it does on the array cut down to its first
    [items_count] items. *)
Theorem scan_reads_prefix_only
    (fuel : nat) (items result : list Z) (items_count co cs ws : Z) :
  Forall in_int64 items ->
  in_int32 items_count ->
  0 <= items_count <= Z.of_nat (length items) ->
  in_int32 co -> in_int32 cs -> in_int32 ws ->
  (Z.to_nat items_count < fuel)%nat ->
  get_item_indices_in_window fuel items result items_count co cs ws
  = get_item_indices_in_window fuel (take (Z.to_nat items_count) items)
      result items_count co cs ws.
Proof.
  intros Hitems Hcount Hrange Hco Hcs Hws Hfuel.
  rewrite (scan_outcome fuel items result items_count co cs ws)
    by assumption.
  rewrite (scan_outcome fuel (take (Z.to_nat items_count) items) result
             items_count co cs ws);
    [|apply Forall_take; assumption|assumption|rewrite length_take; lia
     |assumption..].
  cbn zeta. rewrite take_take, Nat.min_id. reflexivity.
Qed.

Lemma scan_reads_prefix_only_witness :
  get_item_indices_in_window 3 adjacent_items [0; 0; 0] 2 10 10 0
  = get_item_indices_in_window 3 (take (Z.to_nat 2) adjacent_items)
      [0; 0; 0] 2 10 10 0.
Proof.
  apply scan_reads_prefix_only.
  - repeat first [apply Forall_nil_2
                 | apply Forall_cons_2; [vm_compute; split; congruence|]].
  - unfold in_int32; lia.
  - simpl; lia.
  - unfold in_int32; lia.
  - unfold in_int32; lia.
  - unfold in_int32; lia.
  - simpl; lia.
Defined.

(** X4: the result array needs one slot for each item that is in the
    window, and no more: with that many slots the call returns the count
    and stores the indices; with fewer it stores past the end of the
    result array. *)
Theorem scan_result_capacity
    (fuel : nat) (items result : list Z) (items_count co cs ws : Z) :
  Forall in_int64 items ->
  in_int32 items_count ->
  items_count = Z.of_nat (length items) ->
  in_int32 co -> in_int32 cs -> in_int32 ws ->
  (Z.to_nat items_count < fuel)%nat ->
  let matches :=
    length (filter (fun item => in_window item co cs ws) items) in
  ((matches <= length result)%nat ->
   exists result' : list Z,
     get_item_indices_in_window fuel items result items_count co cs ws
     = Done (Z.of_nat matches, result')
     /\ take matches result' = window_indices 0 items co cs ws
     /\ drop matches result' = drop matches result)
  /\ ((length result < matches)%nat ->
      get_item_indices_in_window fuel items result items_count co cs ws
      = Fault).
Proof.
  intros Hitems Hcount Heq Hco Hcs Hws Hfuel matches.
  pose proof (scan_outcome fuel items result items_count co cs ws
                Hitems Hcount ltac:(lia) Hco Hcs Hws Hfuel) as Hrun.
  subst items_count. cbn zeta in Hrun. rewrite Nat2Z.id, firstn_all in Hrun.
  set (found := window_indices 0 items co cs ws) in *.
  assert (Hlen : length found = matches)
    by apply window_indices_length.
  rewrite Hlen in Hrun. split; intros Hcap.
  - destruct (decide (matches <= length result)%nat) as [_|Hn]; [|lia].
    exists (found ++ drop matches result). split; [exact Hrun|].
    rewrite <- Hlen. split; [apply take_app_length|].
    rewrite drop_app_length. reflexivity.
  - destruct (decide (matches <= length result)%nat) as [Hle|_]; [lia|].
    exact Hrun.
Qed.

Lemma scan_result_capacity_witness :
  (exists result' : list Z,
     get_item_indices_in_window 4 overlapping_items [7; 8] 3 40 20 0
     = Done (2, result'))
  /\ get_item_indices_in_window 4 overlapping_items [7] 3 40 20 0 = Fault.
Proof.
  assert (Hitems : Forall in_int64 overlapping_items)
    by (repeat first [apply Forall_nil_2
                     | apply Forall_cons_2; [vm_compute; split; congruence|]]).
  assert (H3 : in_int32 3) by (unfold in_int32; lia).
  assert (H40 : in_int32 40) by (unfold in_int32; lia).
  assert (H20 : in_int32 20) by (unfold in_int32; lia).
  assert (H0 : in_int32 0) by (unfold in_int32; lia).
  split.
  - destruct (proj1 (scan_result_capacity 4 overlapping_items [7; 8] 3 40 20 0
                       Hitems H3 eq_refl H40 H20 H0 (Nat.lt_succ_diag_r 3)))
      as (result' & Hrun & _).
    + vm_compute. lia.
    + exists result'. exact Hrun.
  - apply (proj2 (scan_result_capacity 4 overlapping_items [7] 3 40 20 0
                    Hitems H3 eq_refl H40 H20 H0 (Nat.lt_succ_diag_r 3))).
    vm_compute. lia.
Defined.

(** X5: an [items_count] larger than the array makes the call step
    outside an array: unless it has already run off the end of the result
    array, it reads [items] at the index just past its last item. *)
Theorem scan_count_beyond_array
    (fuel : nat) (items result : list Z) (items_count co cs ws : Z) :
  Forall in_int64 items ->
  in_int32 items_count ->
  Z.of_nat (length items) < items_count ->
  in_int32 co -> in_int32 cs -> in_int32 ws ->
  (length items < fuel)%nat ->
  get_item_indices_in_window fuel items result items_count co cs ws = Fault.
Proof.
  intros Hitems Hcount Hlt Hco Hcs Hws Hfuel.
  assert (Hsplit : items = [] ++ items ++ [])
    by (simpl; rewrite app_nil_r; reflexivity).
  pose proof (scan_loop_segment items items_count co cs ws Hitems Hcount
                Hco Hcs Hws items [] [] O result
                (S (fuel - length items - 1)) Hsplit) as Hrun.
  cbn zeta in Hrun. cbn [length Nat.add] in Hrun.
  change (Z.of_nat 0) with 0 in Hrun.
  replace (length items + S (fuel - length items - 1))%nat with fuel in Hrun
    by lia.
  unfold get_item_indices_in_window. rewrite Hrun by lia.
  destruct (decide _); [|reflexivity].
  cbn [scan_loop st_i].
  destruct (Z.ltb_spec (Z.of_nat (length items)) items_count) as [_|Hge];
    [|lia].
  unfold scan_body, read. cbn [st_i].
  destruct (Z.ltb_spec (Z.of_nat (length items)) 0) as [Hneg|_]; [lia|].
  rewrite Nat2Z.id, lookup_ge_None_2 by lia. reflexivity.
Qed.

Lemma scan_count_beyond_array_witness :
  get_item_indices_in_window 5 adjacent_items [0; 0; 0; 0] 4 10 10 0 = Fault.
Proof.
  apply scan_count_beyond_array.
  - repeat first [apply Forall_nil_2
                 | apply Forall_cons_2; [vm_compute; split; congruence|]].
  - unfold in_int32; lia.
  - simpl; lia.
  - unfold in_int32; lia.
  - unfold in_int32; lia.
  - unfold in_int32; lia.
  - simpl; lia.
Defined.

(** X6: a larger viewport or a larger margin never drops an item: the
    indices reported for [cursor_size] and [window_size] are all reported
    for any [cursor_size'] and [window_size'] that are at least as
    large, and the count does not decrease. *)
Theorem scan_window_monotone
    (fuel : nat) (items result : list Z) (items_count co cs ws cs' ws' : Z) :
  Forall in_int64 items ->
  in_int32 items_count ->
  items_count = Z.of_nat (length items) ->
  (length items <= length result)%nat ->
  in_int32 co -> in_int32 cs -> in_int32 ws ->
  in_int32 cs' -> in_int32 ws' ->
  cs <= cs' -> ws <= ws' ->
  (Z.to_nat items_count < fuel)%nat ->
  exists (count count' : Z) (found found' : list Z),
    get_item_indices_in_window fuel items result items_count co cs ws
    = Done (count, found)
    /\ get_item_indices_in_window fuel items result items_count co cs' ws'
       = Done (count', found')
    /\ count <= count'
    /\ forall i : Z,
         i ∈ take (Z.to_nat count) found ->
         i ∈ take (Z.to_nat count') found'.
Proof.
  intros Hitems Hcount Heq Hres Hco Hcs Hws Hcs' Hws' Hle_cs Hle_ws Hfuel.
  destruct (scan_found fuel items result items_count co cs ws
              Hitems Hcount Heq Hres Hco Hcs Hws Hfuel)
    as (count & found & Hrun & Hc & Htake & _).
  destruct (scan_found fuel items result items_count co cs' ws'
              Hitems Hcount Heq Hres Hco Hcs' Hws' Hfuel)
    as (count' & found' & Hrun' & Hc' & Htake' & _).
  exists count, count', found, found'.
  split; [exact Hrun|]. split; [exact Hrun'|]. split.
  - rewrite Hc, Hc'. apply inj_le.
    apply window_indices_grow; assumption.
  - intros i. rewrite Htake, Htake', !window_indices_index.
    intros (item & Hi & Hitem & Hin). exists item.
    split; [exact Hi|]. split; [exact Hitem|].
    unfold in_window in *. lia.
Qed.

Lemma scan_window_monotone_witness :
  exists (count count' : Z) (found found' : list Z),
    get_item_indices_in_window 4 adjacent_items [0; 0; 0] 3 12 2 0
    = Done (count, found)
    /\ get_item_indices_in_window 4 adjacent_items [0; 0; 0] 3 12 2 10
       = Done (count', found')
    /\ count <= count'
    /\ forall i : Z,
         i ∈ take (Z.to_nat count) found ->
         i ∈ take (Z.to_nat count') found'.
Proof.
  apply scan_window_monotone.
  - repeat first [apply Forall_nil_2
                 | apply Forall_cons_2; [vm_compute; split; congruence|]].
  - unfold in_int32; lia.
  - reflexivity.
  - simpl; lia.
  - unfold in_int32; lia.
  - unfold in_int32; lia.
  - unfold in_int32; lia.
  - unfold in_int32; lia.
  - unfold in_int32; lia.
  - lia.
  - lia.
  - simpl; lia.
Defined.

(** X7: the scan decides item by item: on two arrays laid one after the
    other it reports the indices of the first, then those of the second
    moved up by the length of the first, and the count is the sum of the
    two counts. *)
Theorem scan_app
    (fuel : nat) (items1 items2 result : list Z) (co cs ws : Z) :
  Forall in_int64 items1 ->
  Forall in_int64 items2 ->
  in_int32 (Z.of_nat (length (items1 ++ items2))) ->
  (length (items1 ++ items2) <= length result)%nat ->
  in_int32 co -> in_int32 cs -> in_int32 ws ->
  (length (items1 ++ items2) < fuel)%nat ->
  exists (count1 count2 : Z) (found1 found2 found : list Z),
    get_item_indices_in_window fuel items1 result
      (Z.of_nat (length items1)) co cs ws = Done (count1, found1)
    /\ get_item_indices_in_window fuel items2 result
         (Z.of_nat (length items2)) co cs ws = Done (count2, found2)
    /\ get_item_indices_in_window fuel (items1 ++ items2) result
         (Z.of_nat (length (items1 ++ items2))) co cs ws
       = Done (count1 + count2, found)
    /\ take (Z.to_nat (count1 + count2)) found
       = take (Z.to_nat count1) found1
         ++ ((fun i => i + Z.of_nat (length items1))
               <$> take (Z.to_nat count2) found2).
Proof.
  intros Hitems1 Hitems2 Hcount Hres Hco Hcs Hws Hfuel.
  assert (Hlen : length (items1 ++ items2)
                 = (length items1 + length items2)%nat) by apply length_app.
  unfold in_int32 in Hcount.
  destruct (scan_found fuel items1 result (Z.of_nat (length items1)) co cs ws)
    as (count1 & found1 & Hrun1 & Hc1 & Htake1 & _);
    try assumption; try reflexivity; try (unfold in_int32; lia); try lia.
  destruct (scan_found fuel items2 result (Z.of_nat (length items2)) co cs ws)
    as (count2 & found2 & Hrun2 & Hc2 & Htake2 & _);
    try assumption; try reflexivity; try (unfold in_int32; lia); try lia.
  destruct (scan_found fuel (items1 ++ items2) result
              (Z.of_nat (length (items1 ++ items2))) co cs ws)
    as (count & found & Hrun & Hc & Htake & _);
    try assumption; try reflexivity; try (unfold in_int32; lia); try lia.
  { apply Forall_app. split; assumption. }
  assert (Hfound : window_indices 0 (items1 ++ items2) co cs ws
            = window_indices 0 items1 co cs ws
              ++ ((fun i => i + Z.of_nat (length items1))
                    <$> window_indices 0 items2 co cs ws)).
  { rewrite window_indices_app, window_indices_shift. reflexivity. }
  assert (Hsum : count = count1 + count2).
  { rewrite Hc, Hc1, Hc2, Hfound, length_app, length_fmap. lia. }
  exists count1, count2, found1, found2, found.
  split; [exact Hrun1|]. split; [exact Hrun2|].
  rewrite <- Hsum. split; [exact Hrun|].
  rewrite Htake, Htake1, Htake2. exact Hfound.
Qed.

Lemma scan_app_witness :
  exists (count1 count2 : Z) (found1 found2 found : list Z),
    get_item_indices_in_window 7 adjacent_items [0; 0; 0; 0; 0; 0]
      (Z.of_nat (length adjacent_items)) 10 5 0 = Done (count1, found1)
    /\ get_item_indices_in_window 7 overlapping_items [0; 0; 0; 0; 0; 0]
         (Z.of_nat (length overlapping_items)) 10 5 0 = Done (count2, found2)
    /\ get_item_indices_in_window 7 (adjacent_items ++ overlapping_items)
         [0; 0; 0; 0; 0; 0]
         (Z.of_nat (length (adjacent_items ++ overlapping_items))) 10 5 0
       = Done (count1 + count2, found)
    /\ take (Z.to_nat (count1 + count2)) found
       = take (Z.to_nat count1) found1
         ++ ((fun i => i + Z.of_nat (length adjacent_items))
               <$> take (Z.to_nat count2) found2).
Proof.
  apply scan_app.
  - repeat first [apply Forall_nil_2
                 | apply Forall_cons_2; [vm_compute; split; congruence|]].
  - repeat first [apply Forall_nil_2
                 | apply Forall_cons_2; [vm_compute; split; congruence|]].
  - vm_compute; split; congruence.
  - simpl; lia.
  - unfold in_int32; lia.
  - unfold in_int32; lia.
  - unfold in_int32; lia.
  - simpl; lia.
Defined.

End ScanProperties.

(** ** Further properties of the padding *)

Section PaddingProperties.

Lemma wrap32_high (z : Z) : 2 ^ 31 <= z < 2 ^ 32 -> wrap32 z = z - 2 ^ 32.
Proof.
  intros Hz. unfold wrap32.
  replace (z + 2 ^ 31) with (z - 2 ^ 31 + 1 * 2 ^ 32) by lia.
  rewrite Z.mod_add by lia. rewrite Z.mod_small by lia. lia.
Qed.

Lemma get_top_padding_read (items : list Z) (i item : Z) :
  0 <= i -> items !! Z.to_nat i = Some item ->
  get_top_padding items i = Some (wrap32 (get_item_offset item)).
Proof.
  intros Hi Hitem. unfold get_top_padding.
  rewrite (read_valid items i item Hi Hitem). reflexivity.
Qed.

Lemma get_bottom_padding_read
    (items : list Z) (total_items i last_item item : Z) :
  Forall in_int64 items ->
  in_int32 total_items ->
  1 <= total_items ->
  0 <= i ->
  items !! Z.to_nat (total_items - 1) = Some last_item ->
  items !! Z.to_nat i = Some item ->
  get_bottom_padding items total_items i
  = Some (wrap32 (bottom_padding_value last_item item)).
Proof.
  intros Hitems Htotal Hpos Hi Hlast Hitem.
  unfold get_bottom_padding, bottom_padding_value.
  unfold in_int32 in Htotal.
  rewrite (wrap32_small (total_items - 1)) by (unfold in_int32; lia).
  rewrite (read_valid items (total_items - 1) last_item) by (lia || assumption).
  rewrite (read_valid items i item) by (lia || assumption).
  pose proof (get_item_offset_range last_item) as Ho1.
  pose proof (get_item_offset_range item) as Ho2.
  pose proof (get_item_size_range last_item
                (Forall_lookup_1 _ _ _ _ Hitems Hlast)) as Hs1.
  pose proof (get_item_size_range item
                (Forall_lookup_1 _ _ _ _ Hitems Hitem)) as Hs2.
  unfold in_int32 in Hs1, Hs2.
  rewrite (wrap64_small (get_item_offset last_item + get_item_size last_item))
    by (unfold in_int64; lia).
  rewrite (wrap64_small (_ - get_item_offset item)) by (unfold in_int64; lia).
  rewrite (wrap64_small (_ - get_item_size item)) by (unfold in_int64; lia).
  do 2 f_equal. lia.
Qed.

(** X8: the top padding of an item built by [make_item] is the offset
    that was passed to [make_item], for every [int] offset, negative ones
    included: the conversion to [int] undoes the zero extension of the
    decoder. *)
Theorem get_top_padding_of_make_item (items : list Z) (i size offset : Z) :
  in_int32 size -> in_int32 offset ->
  0 <= i -> items !! Z.to_nat i = Some (make_item size offset) ->
  get_top_padding items i = Some offset.
Proof.
  unfold in_int32 at 2. intros Hs Ho Hi Hitem.
  rewrite (get_top_padding_read items i _ Hi Hitem). f_equal.
  destruct (make_item_fields size offset Hs) as [_ ->].
  destruct (Z.lt_ge_cases offset 0) as [Hneg|Hnonneg].
  - rewrite <- (Z.mod_unique offset (2 ^ 32) (-1) (offset + 2 ^ 32)) by lia.
    rewrite wrap32_high by lia. lia.
  - rewrite Z.mod_small by lia. apply wrap32_small. unfold in_int32. lia.
Qed.

Lemma get_top_padding_of_make_item_witness :
  get_top_padding [make_item 5 (-7)] 0 = Some (-7).
Proof.
  apply (get_top_padding_of_make_item [make_item 5 (-7)] 0 5 (-7)).
  - unfold in_int32; lia.
  - unfold in_int32; lia.
  - lia.
  - reflexivity.
Defined.

(** X9: when the last visible item is the last item of the sequence the
    bottom padding is 0, whatever the items hold. *)
Theorem get_bottom_padding_last (items : list Z) (total_items : Z) :
  Forall in_int64 items ->
  in_int32 total_items ->
  1 <= total_items <= Z.of_nat (length items) ->
  get_bottom_padding items total_items (total_items - 1) = Some 0.
Proof.
  intros Hitems Htotal Hrange.
  assert (Hsome : is_Some (items !! Z.to_nat (total_items - 1)))
    by (apply lookup_lt_is_Some; lia).
  destruct Hsome as [last_item Hlast].
  rewrite (get_bottom_padding_read items total_items (total_items - 1)
             last_item last_item) by (assumption || lia).
  unfold bottom_padding_value. rewrite Z.sub_diag. reflexivity.
Qed.

Lemma get_bottom_padding_last_witness :
  get_bottom_padding long_items 2 (2 - 1) = Some 0.
Proof.
  apply get_bottom_padding_last.
  - repeat first [apply Forall_nil_2
                 | apply Forall_cons_2; [vm_compute; split; congruence|]].
  - unfold in_int32; lia.
  - simpl; lia.
Defined.

(** X10: where the end positions never decrease along the array and the
    distance from the end of item [j] to the end of the last item is below
    [2^31], the bottom padding is never negative and does not grow as the
    last visible item moves down from [j] to [k]. *)
Theorem get_bottom_padding_antitone
    (items : list Z) (total_items j k last_item item_j : Z) :
  Forall in_int64 items ->
  ends_nondecreasing items ->
  in_int32 total_items ->
  total_items <= Z.of_nat (length items) ->
  0 <= j <= k -> k <= total_items - 1 ->
  items !! Z.to_nat (total_items - 1) = Some last_item ->
  items !! Z.to_nat j = Some item_j ->
  bottom_padding_value last_item item_j < 2 ^ 31 ->
  exists pad_j pad_k : Z,
    get_bottom_padding items total_items j = Some pad_j
    /\ get_bottom_padding items total_items k = Some pad_k
    /\ 0 <= pad_k <= pad_j.
Proof.
  intros Hitems Hends Htotal Hlen Hjk Hk Hlast Hj Hfits.
  assert (Hsome : is_Some (items !! Z.to_nat k))
    by (apply lookup_lt_is_Some; lia).
  destruct Hsome as [item_k Hitem_k].
  pose proof (Hends (Z.to_nat j) (Z.to_nat k) item_j item_k
                ltac:(lia) Hj Hitem_k) as Hjk_end.
  pose proof (Hends (Z.to_nat k) (Z.to_nat (total_items - 1)) item_k last_item
                ltac:(lia) Hitem_k Hlast) as Hk_end.
  exists (bottom_padding_value last_item item_j),
         (bottom_padding_value last_item item_k).
  rewrite (get_bottom_padding_read items total_items j last_item item_j)
    by (assumption || lia).
  rewrite (get_bottom_padding_read items total_items k last_item item_k)
    by (assumption || lia).
  unfold bottom_padding_value in *.
  rewrite !wrap32_small by (unfold in_int32; lia).
  split; [reflexivity|]. split; [reflexivity|]. lia.
Qed.

Lemma get_bottom_padding_antitone_witness :
  exists pad_j pad_k : Z,
    get_bottom_padding adjacent_items 3 0 = Some pad_j
    /\ get_bottom_padding adjacent_items 3 1 = Some pad_k
    /\ 0 <= pad_k <= pad_j.
Proof.
  apply (get_bottom_padding_antitone adjacent_items 3 0 1
           (make_item 10 20) (make_item 10 0)).
  - repeat first [apply Forall_nil_2
                 | apply Forall_cons_2; [vm_compute; split; congruence|]].
  - intros i j a b Hij Hi Hj.
    destruct i as [|[|[|i]]]; destruct j as [|[|[|j]]];
      try lia; simpl in Hi, Hj; try discriminate;
      injection Hi as <-; injection Hj as <-; vm_compute; congruence.
  - unfold in_int32; lia.
  - simpl; lia.
  - lia.
  - lia.
  - reflexivity.
  - reflexivity.
  - vm_compute. reflexivity.
Defined.

(** X11: the two paddings and the visible run add up to the whole
    sequence: for a first visible index [i] and a last visible index [j],
    with the offset of item [i] below [2^31] and the bottom padding an
    [int] value, the top padding, the distance from the start of item [i]
    to the end of item [j], and the bottom padding sum to the end of the
    last item. *)
Theorem paddings_sum_to_total
    (items : list Z) (total_items i j last_item item_i item_j : Z) :
  Forall in_int64 items ->
  in_int32 total_items ->
  1 <= total_items ->
  0 <= i -> 0 <= j ->
  items !! Z.to_nat (total_items - 1) = Some last_item ->
  items !! Z.to_nat i = Some item_i ->
  items !! Z.to_nat j = Some item_j ->
  get_item_offset item_i < 2 ^ 31 ->
  in_int32 (bottom_padding_value last_item item_j) ->
  exists top bottom : Z,
    get_top_padding items i = Some top
    /\ get_bottom_padding items total_items j = Some bottom
    /\ top
       + (get_item_offset item_j + get_item_size item_j - get_item_offset item_i)
       + bottom
       = get_item_offset last_item + get_item_size last_item.
Proof.
  intros Hitems Htotal Hpos Hi Hj Hlast Hitem_i Hitem_j Hlow Hfits.
  pose proof (get_item_offset_range item_i) as Hrange.
  exists (get_item_offset item_i), (bottom_padding_value last_item item_j).
  rewrite (get_top_padding_read items i item_i Hi Hitem_i).
  rewrite (get_bottom_padding_read items total_items j last_item item_j)
    by assumption.
  rewrite (wrap32_small (get_item_offset item_i)) by (unfold in_int32; lia).
  rewrite (wrap32_small (bottom_padding_value _ _)) by exact Hfits.
  split; [reflexivity|]. split; [reflexivity|].
  unfold bottom_padding_value. lia.
Qed.

Lemma paddings_sum_to_total_witness :
  exists top bottom : Z,
    get_top_padding adjacent_items 1 = Some top
    /\ get_bottom_padding adjacent_items 3 1 = Some bottom
    /\ top
       + (get_item_offset (make_item 10 10) + get_item_size (make_item 10 10)
          - get_item_offset (make_item 10 10))
       + bottom
       = get_item_offset (make_item 10 20) + get_item_size (make_item 10 20).
Proof.
  apply (paddings_sum_to_total adjacent_items 3 1 1).
  - repeat first [apply Forall_nil_2
                 | apply Forall_cons_2; [vm_compute; split; congruence|]].
  - unfold in_int32; lia.
  - lia.
  - lia.
  - lia.
  - reflexivity.
  - reflexivity.
  - reflexivity.
  - vm_compute. reflexivity.
  - vm_compute. split; congruence.
Defined.

End PaddingProperties.

(** ** The operations together *)

Section Composition.



(** X13: the window test sees the size and the offset that were packed:
    for an item built by [make_item] from a size of either sign and a
    non-negative offset, and [int] cursor values, it returns 1 exactly
    when [offset <= cursor_offset + cursor_size + window_size] and
    [offset + size >= cursor_offset - window_size], and 0 otherwise. *)
Theorem is_item_in_window_of_make_item (size offset co cs ws : Z) :
  in_int32 size -> in_int32 offset -> 0 <= offset ->
  in_int32 co -> in_int32 cs -> in_int32 ws ->
  is_item_in_window (make_item size offset) co cs ws
  = if (offset <=? co + cs + ws) && (co - ws <=? offset + size)
    then 1 else 0.
Proof.
  intros Hs Ho Hnonneg Hco Hcs Hws.
  assert (Ho' : 0 <= offset < 2 ^ 32) by (unfold in_int32 in Ho; lia).
  destruct (make_item_packed_value size offset Hs Ho') as [_ Hval].
  destruct (fields_of_words size offset Ho') as [Hsize Hoff].
  rewrite <- Hval in Hsize, Hoff.
  rewrite is_item_in_window_int32; [|rewrite Hval|assumption..].
  - unfold in_windowb. rewrite Hsize, Hoff. reflexivity.
  - unfold in_int32 in Hs. unfold in_int64. lia.
Qed.

Lemma is_item_in_window_of_make_item_witness :
  is_item_in_window (make_item (-3) 20) 10 10 0
  = if (20 <=? 10 + 10 + 0) && (10 - 0 <=? 20 + -3) then 1 else 0.
Proof.
  apply is_item_in_window_of_make_item.
  - unfold in_int32; lia.
  - unfold in_int32; lia.
  - lia.
  - unfold in_int32; lia.
  - unfold in_int32; lia.
  - unfold in_int32; lia.
Defined.

End Composition.
